(** * vgc-collection: the panorama viewer's view-state controller, catalog and router

    A shallow embedding of [src/App.js] (the responsive variant, with pinch
    zoom) and theorems about it.

    Conventions of the embedding.
    - A JavaScript number is read as a real number ([R]): [Math.min],
      [Math.max], [Math.sqrt], [Math.sin] and [Math.cos] are [Rmin], [Rmax],
      [sqrt], [sin] and [cos].  Rounding, [NaN] and the infinities of IEEE
      doubles are outside this reading.
    - The objects the handlers mutate (the camera, the orbit-control handle
      behind [controlsRef], the [initialTouchDistance] ref) live in one
      store, [World]; a handler is a computation [Js A] over that store
      which may also throw (reading a property of [undefined]).
    - The rendering library is an external collaborator.  The arithmetic of
      its [Vector3] and [Quaternion] classes is written out; its opaque
      operations ([updateProjectionMatrix], [lookAt], the control handle's
      [update], the event's [preventDefault]) are recorded, in order and
      with the values they observe, in the store's list of [calls]. *)

From Stdlib Require Import Reals Lra Psatz List String Ascii Bool Arith.
Import ListNotations.

Open Scope R_scope.

(** ** Numbers *)

Definition Math_max (a b : R) : R := Rmax a b.
Definition Math_min (a b : R) : R := Rmin a b.
Definition Math_sqrt (x : R) : R := sqrt x.

(** The clamp every zoom path writes out:
    [Math.min(Math.max(camera.fov, 30), 100)]. *)
Definition clampFov (f : R) : R := Math_min (Math_max f 30) 100.

(** ** The rendering library's vectors and quaternions *)

Module THREE.

Record Vector3 : Type := vec3 { x : R; y : R; z : R }.

Record Quaternion : Type := quat { _x : R; _y : R; _z : R; _w : R }.

(** [a.sub(b)], [a.add(b)]: component-wise. *)
Definition sub (a b : Vector3) : Vector3 :=
  vec3 (x a - x b) (y a - y b) (z a - z b).

Definition add (a b : Vector3) : Vector3 :=
  vec3 (x a + x b) (y a + y b) (z a + z b).

Definition lengthSq (v : Vector3) : R := x v * x v + y v * y v + z v * z v.

Definition length (v : Vector3) : R := Math_sqrt (lengthSq v).

(** [new Quaternion().setFromAxisAngle(axis, angle)]; the axis is taken as
    normalized. *)
Definition setFromAxisAngle (axis : Vector3) (angle : R) : Quaternion :=
  let halfAngle := angle / 2 in
  let s := sin halfAngle in
  quat (x axis * s) (y axis * s) (z axis * s) (cos halfAngle).

(** [a.multiply(b)]: the Hamilton product a * b, stored into [a]. *)
Definition multiply (a b : Quaternion) : Quaternion :=
  let qax := _x a in let qay := _y a in let qaz := _z a in let qaw := _w a in
  let qbx := _x b in let qby := _y b in let qbz := _z b in let qbw := _w b in
  quat (qax * qbw + qaw * qbx + qay * qbz - qaz * qby)
       (qay * qbw + qaw * qby + qaz * qbx - qax * qbz)
       (qaz * qbw + qaw * qbz + qax * qby - qay * qbx)
       (qaw * qbw - qax * qbx - qay * qby - qaz * qbz).

(** [v.applyQuaternion(q)]: the vector part of q * v * conj(q). *)
Definition applyQuaternion (v : Vector3) (q : Quaternion) : Vector3 :=
  let vx := x v in let vy := y v in let vz := z v in
  let qx := _x q in let qy := _y q in let qz := _z q in let qw := _w q in
  let ix := qw * vx + qy * vz - qz * vy in
  let iy := qw * vy + qz * vx - qx * vz in
  let iz := qw * vz + qx * vy - qy * vx in
  let iw := - qx * vx - qy * vy - qz * vz in
  vec3 (ix * qw + iw * - qx + iy * - qz - iz * - qy)
       (iy * qw + iw * - qy + iz * - qx - ix * - qz)
       (iz * qw + iw * - qz + ix * - qy - iy * - qx).

(** The same method as later releases of the library write it:
    v + 2w (u x v) + 2 u x (u x v), with u the vector part of [q]. *)
Definition applyQuaternion_cross (v : Vector3) (q : Quaternion) : Vector3 :=
  let vx := x v in let vy := y v in let vz := z v in
  let qx := _x q in let qy := _y q in let qz := _z q in let qw := _w q in
  let tx := 2 * (qy * vz - qz * vy) in
  let ty := 2 * (qz * vx - qx * vz) in
  let tz := 2 * (qx * vy - qy * vx) in
  vec3 (vx + qw * tx + qy * tz - qz * ty)
       (vy + qw * ty + qz * tx - qx * tz)
       (vz + qw * tz + qx * ty - qy * tx).

Definition normSq (q : Quaternion) : R :=
  _x q * _x q + _y q * _y q + _z q * _z q + _w q * _w q.


End THREE.

(** ** The store *)

(** The fields of the perspective camera the code reads and writes. *)
Record Camera : Type := mkCamera {
  fov : R;
  position : THREE.Vector3
}.

(** The orbit-control handle.  Its [object] is the store's camera (the one
    [useThree] hands to the zoom handler), so only [target] is held here. *)
Record OrbitControls : Type := mkControls {
  target : THREE.Vector3
}.

(** Calls into the rendering library and the browser, with what they see. *)
Inductive Call : Type :=
| UpdateProjectionMatrix (fieldOfView : R)
| LookAt (from to : THREE.Vector3)
| ControlsUpdate (from to : THREE.Vector3)
| PreventDefault.

Record World : Type := mkWorld {
  camera : Camera;
  controlsRef : option OrbitControls;      (* controlsRef.current, None = null *)
  initialTouchDistance : option R;         (* the ref's current, None = null *)
  innerWidth : R;                          (* window.innerWidth *)
  calls : list Call                        (* oldest first *)
}.

(** ** Handlers as store computations *)

Definition Js (A : Type) : Type := World -> option (A * World).

Definition ret {A : Type} (a : A) : Js A := fun w => Some (a, w).

Definition bind {A B : Type} (m : Js A) (k : A -> Js B) : Js B :=
  fun w => match m w with
           | Some (a, w') => k a w'
           | None => None
           end.

(** A [TypeError]: a property read on [null] or [undefined]. *)
Definition throw {A : Type} : Js A := fun _ => None.

Declare Scope js_scope.
Delimit Scope js_scope with js.
Notation "x <- m ;; k" := (bind m (fun x => k))
  (at level 61, m at next level, right associativity) : js_scope.
Notation "m ;; k" := (bind m (fun _ => k))
  (at level 61, right associativity) : js_scope.
Open Scope js_scope.

Definition read {A : Type} (f : World -> A) : Js A := fun w => Some (f w, w).

Definition write_fov (f : R) : Js unit := fun w =>
  Some (tt, mkWorld (mkCamera f (position (camera w))) (controlsRef w)
                    (initialTouchDistance w) (innerWidth w) (calls w)).

Definition write_position (p : THREE.Vector3) : Js unit := fun w =>
  Some (tt, mkWorld (mkCamera (fov (camera w)) p) (controlsRef w)
                    (initialTouchDistance w) (innerWidth w) (calls w)).

(** A write through [controls.target]; throws when the ref is null. *)
Definition write_target (t : THREE.Vector3) : Js unit := fun w =>
  match controlsRef w with
  | Some _ => Some (tt, mkWorld (camera w) (Some (mkControls t))
                                (initialTouchDistance w) (innerWidth w) (calls w))
  | None => None
  end.

Definition write_initialTouchDistance (d : option R) : Js unit := fun w =>
  Some (tt, mkWorld (camera w) (controlsRef w) d (innerWidth w) (calls w)).

Definition call (c : Call) : Js unit := fun w =>
  Some (tt, mkWorld (camera w) (controlsRef w) (initialTouchDistance w)
                    (innerWidth w) (calls w ++ [c])).

(** [camera.updateProjectionMatrix()]. *)
Definition updateProjectionMatrix : Js unit :=
  f <- read (fun w => fov (camera w)) ;;
  call (UpdateProjectionMatrix f).

(** [camera.lookAt(t)]. *)
Definition lookAt (t : THREE.Vector3) : Js unit :=
  p <- read (fun w => position (camera w)) ;;
  call (LookAt p t).

(** [controls.update()]. *)
Definition controls_update : Js unit :=
  p <- read (fun w => position (camera w)) ;;
  current <- read controlsRef ;;
  match current with
  | Some c => call (ControlsUpdate p (target c))
  | None => throw
  end.

(** ** Constants of [App.js] *)

Definition DESKTOP_FOV : R := 70.
Definition MOBILE_FOV : R := 85.
Definition INITIAL_CAMERA_POSITION : R * R * R := (0, 0, 0.1).
Definition INITIAL_TARGET : R * R * R := (0, 0, 0).
Definition ZOOM_SENSITIVITY : R := 0.15.

(** [v.set(...xyz)] with a three-element array spread into the call. *)
Definition set_spread (xyz : R * R * R) : THREE.Vector3 :=
  let '(a, b, c) := xyz in THREE.vec3 a b c.

(** ** FovZoomHandler: wheel and pinch zoom *)

Record Touch : Type := mkTouch { clientX : R; clientY : R }.

(** [getDistance(touches)]: reads [touches[0]] and [touches[1]]. *)
Definition getDistance (touches : list Touch) : Js R :=
  match nth_error touches 0, nth_error touches 1 with
  | Some t0, Some t1 =>
      let dx := clientX t0 - clientX t1 in
      let dy := clientY t0 - clientY t1 in
      ret (Math_sqrt (dx * dx + dy * dy))
  | _, _ => throw
  end.

Definition handleTouchStart (touches : list Touch) : Js unit :=
  if Nat.eqb (List.length touches) 2 then
    d <- getDistance touches ;;
    write_initialTouchDistance (Some d)
  else
    write_initialTouchDistance None.

Definition handleTouchMove (touches : list Touch) : Js unit :=
  recorded <- read initialTouchDistance ;;
  match Nat.eqb (List.length touches) 2, recorded with
  | true, Some initial =>
      call PreventDefault ;;
      currentDistance <- getDistance touches ;;
      let deltaDistance := initial - currentDistance in
      let zoomFactor := deltaDistance * ZOOM_SENSITIVITY in
      f <- read (fun w => fov (camera w)) ;;
      write_fov (f + zoomFactor) ;;
      f <- read (fun w => fov (camera w)) ;;
      write_fov (Math_min (Math_max f 30) 100) ;;
      updateProjectionMatrix ;;
      write_initialTouchDistance (Some currentDistance)
  | _, _ => ret tt
  end.

Definition handleTouchEnd : Js unit :=
  write_initialTouchDistance None.

Definition handleWheel (deltaY : R) : Js unit :=
  f <- read (fun w => fov (camera w)) ;;
  write_fov (f + deltaY * ZOOM_SENSITIVITY) ;;
  f <- read (fun w => fov (camera w)) ;;
  write_fov (Math_min (Math_max f 30) 100) ;;
  updateProjectionMatrix.

(** ** ArrowControls: rotate, zoom, revertView *)

Definition rotate (angleX angleY : R) : Js unit :=
  current <- read controlsRef ;;
  match current with
  | None => ret tt
  | Some controls =>
      let target := target controls in
      let quaternionX := THREE.setFromAxisAngle (THREE.vec3 0 1 0) angleX in
      let quaternionY := THREE.setFromAxisAngle (THREE.vec3 1 0 0) angleY in
      let quaternion := THREE.multiply quaternionX quaternionY in
      p <- read (fun w => position (camera w)) ;;
      write_position (THREE.sub p target) ;;
      p <- read (fun w => position (camera w)) ;;
      write_position (THREE.applyQuaternion p quaternion) ;;
      p <- read (fun w => position (camera w)) ;;
      write_position (THREE.add p target) ;;
      lookAt target ;;
      controls_update
  end.

Definition zoom (factor : R) : Js unit :=
  current <- read controlsRef ;;
  match current with
  | None => ret tt
  | Some _ =>
      f <- read (fun w => fov (camera w)) ;;
      write_fov (f + factor) ;;
      f <- read (fun w => fov (camera w)) ;;
      write_fov (Math_min (Math_max f 30) 100) ;;
      updateProjectionMatrix
  end.

Definition revertView : Js unit :=
  current <- read controlsRef ;;
  match current with
  | None => ret tt
  | Some _ =>
      width <- read innerWidth ;;
      let defaultFov := if Rlt_dec width 640 then MOBILE_FOV else DESKTOP_FOV in
      write_position (set_spread INITIAL_CAMERA_POSITION) ;;
      write_target (set_spread INITIAL_TARGET) ;;
      write_fov defaultFov ;;
      updateProjectionMatrix ;;
      controls_update
  end.

(** The seven buttons of the 3x3 pad and their [onClick] handlers. *)
Inductive Button : Type :=
| Up | Left | Revert | Right | ZoomIn | Down | ZoomOut.

Definition onClick (b : Button) : Js unit :=
  match b with
  | Up => rotate 0 0.1
  | Left => rotate 0.1 0
  | Revert => revertView
  | Right => rotate (-0.1) 0
  | ZoomIn => zoom (-5)
  | Down => rotate 0 (-0.1)
  | ZoomOut => zoom 5
  end.

(** ** Events of the viewer *)

Inductive Event : Type :=
| Wheel (deltaY : R)
| TouchStart (touches : list Touch)
| TouchMove (touches : list Touch)
| TouchEnd
| Click (b : Button).

Definition dispatch (e : Event) : Js unit :=
  match e with
  | Wheel deltaY => handleWheel deltaY
  | TouchStart touches => handleTouchStart touches
  | TouchMove touches => handleTouchMove touches
  | TouchEnd => handleTouchEnd
  | Click b => onClick b
  end.

(** A mutation of the view: an event of the viewer, or a call of one of the
    controller's operations with any argument. *)
Inductive Mutation : Type :=
| OnEvent (e : Event)
| ZoomBy (factor : R)
| RotateBy (angleX angleY : R)
| RevertCall.

Definition perform (m : Mutation) : Js unit :=
  match m with
  | OnEvent e => dispatch e
  | ZoomBy factor => zoom factor
  | RotateBy angleX angleY => rotate angleX angleY
  | RevertCall => revertView
  end.

Fixpoint perform_all (ms : list Mutation) : Js unit :=
  match ms with
  | [] => ret tt
  | m :: rest => perform m ;; perform_all rest
  end.

(** What the canvas mounts: the camera prop [{fov, position}] with the
    responsive default computed by the mount effect, the library's default
    orbit target at the origin, nothing recorded, nothing called yet. *)
Definition mounted (width : R) : World :=
  mkWorld (mkCamera (if Rlt_dec width 640 then MOBILE_FOV else DESKTOP_FOV)
                    (set_spread INITIAL_CAMERA_POSITION))
          (Some (mkControls (THREE.vec3 0 0 0))) None width [].

(** The spec's ViewState: field of view, camera position, orbit target. *)
Definition viewState (w : World) : R * THREE.Vector3 * option THREE.Vector3 :=
  (fov (camera w), position (camera w), option_map target (controlsRef w)).

(** ** Strings as the catalog and the router use them *)

Module JsString.

Open Scope string_scope.

(** [s.split(sep)] for a one-character separator. *)
Fixpoint split (sep : ascii) (s : string) : list string :=
  match s with
  | EmptyString => [EmptyString]
  | String c rest =>
      if Ascii.eqb c sep then EmptyString :: split sep rest
      else match split sep rest with
           | seg :: segs => String c seg :: segs
           | [] => [String c EmptyString]
           end
  end.

(** [parts.join(sep)]. *)
Fixpoint join (sep : string) (parts : list string) : string :=
  match parts with
  | [] => ""
  | [s] => s
  | s :: rest => s ++ sep ++ join sep rest
  end.

(** [Boolean(s)]: a string is truthy when it is not empty. *)
Definition truthy (s : string) : bool :=
  match s with
  | EmptyString => false
  | String _ _ => true
  end.

(** [toUpperCase] on one character; only the letters a-z change (the
    catalog's ids are ASCII). *)
Definition upper (c : ascii) : ascii :=
  let n := nat_of_ascii c in
  if (97 <=? n)%nat && (n <=? 122)%nat then ascii_of_nat (n - 32) else c.

(** [w.charAt(0).toUpperCase() + w.slice(1)]. *)
Definition capitalize (w : string) : string :=
  match w with
  | EmptyString => EmptyString
  | String c rest => String (upper c) rest
  end.

End JsString.

(** ** The scene catalog *)

Module SceneCatalog.

Open Scope string_scope.

Definition SCENES : list string :=
  ["aurora"; "mountains"; "tropical_sea"; "underwater_ruins"].

Record Faces : Type := mkFaces {
  right : string;
  left : string;
  top : string;
  bottom : string;
  front : string;
  back : string
}.

Record Scene : Type := mkScene {
  id : string;
  name : string;
  layout : string;
  faces : Faces
}.

Definition makeScene (id : string) : Scene :=
  let base := "/scenes/" ++ id in
  mkScene id
    (JsString.join " " (map JsString.capitalize (JsString.split "_" id)))
    (base ++ "/layout.png")
    (mkFaces (base ++ "/right.png") (base ++ "/left.png")
             (base ++ "/top.png") (base ++ "/bottom.png")
             (base ++ "/front.png") (base ++ "/back.png")).

(** [SCENES.includes(id)]. *)
Definition includes (l : list string) (s : string) : bool :=
  existsb (String.eqb s) l.

Definition findItemById (id : string) : option Scene :=
  if includes SCENES id then Some (makeScene id) else None.

(** The array [CubeViewer] hands to the cube-texture loader. *)
Definition loadOrder (f : Faces) : list string :=
  [right f; left f; top f; bottom f; front f; back f].

(** The seven image paths of a descriptor: the six faces, then the layout. *)
Definition imagePaths (s : Scene) : list string :=
  loadOrder (faces s) ++ [layout s].

(** Modelled from the spec: the image sampler [sample_synccube.py] that
    [run.sh] invokes is not part of the sources; section 6 lists the files
    it writes into [--save_dir]. *)
Definition samplerOutputs : list string :=
  ["right.png"; "left.png"; "top.png"; "bottom.png"; "front.png"; "back.png";
   "layout.png"].

End SceneCatalog.

(** ** The router: URL-based scene loading and navigation *)

Module Router.

Import SceneCatalog.
Open Scope string_scope.

Record App : Type := mkApp {
  selected : option Scene;          (* the [selected] state *)
  pathname : string;                (* window.location.pathname *)
  pushed : list string              (* URLs given to history.pushState *)
}.

Definition setSelected (s : option Scene) (a : App) : App :=
  mkApp s (pathname a) (pushed a).

Definition pushState (url : string) (a : App) : App :=
  mkApp (selected a) url (pushed a ++ [url]).

(** The mount effect "URL-based scene loading". *)
Definition urlSceneLoading (a : App) : App :=
  let parts := filter JsString.truthy (JsString.split "/" (pathname a)) in
  match nth_error parts 0, nth_error parts 1 with
  | Some p0, Some p1 =>
      if String.eqb p0 "viewer" && JsString.truthy p1 then
        match findItemById p1 with
        | Some loaded => setSelected (Some loaded) a
        | None => a
        end
      else a
  | _, _ => a
  end.

Definition selectItem (item : Scene) (a : App) : App :=
  pushState ("/viewer/" ++ id item) (setSelected (Some item) a).

Definition goHome (a : App) : App :=
  pushState "/" (setSelected None a).

(** The application as first rendered at [path]: nothing selected. *)
Definition load (path : string) : App :=
  urlSceneLoading (mkApp None path []).

(** The id of the selected scene, if any. *)
Definition selectedId (a : App) : option string :=
  option_map id (selected a).

End Router.

(** ** The single-default variant of [App.js]

    The second copy of the file differs in its catalog, in one default field
    of view for every viewport, in the wheel sensitivity, in how a display
    name is derived, in the direction of the up and down buttons, and it has
    no touch handlers.  [rotate] and [zoom] are the same text as above. *)

Module SingleFov.

Import SceneCatalog.
Open Scope string_scope.

Definition SCENES : list string := ["aurora"; "canyon"].
Definition DEFAULT_FOV : R := 60.

(** [id[0].toUpperCase() + id.slice(1)] throws on the empty string. *)
Definition makeScene (id : string) : option Scene :=
  let base := "/scenes/" ++ id in
  match id with
  | EmptyString => None
  | String c rest =>
      Some (mkScene id (String (JsString.upper c) rest)
              (base ++ "/layout.png")
              (mkFaces (base ++ "/right.png") (base ++ "/left.png")
                       (base ++ "/top.png") (base ++ "/bottom.png")
                       (base ++ "/front.png") (base ++ "/back.png")))
  end.

(** The outer [None] is the thrown error, the inner one is [null]. *)
Definition findItemById (id : string) : option (option Scene) :=
  if includes SCENES id then
    match makeScene id with
    | Some s => Some (Some s)
    | None => None
    end
  else Some None.

Definition handleWheel (deltaY : R) : Js unit :=
  f <- read (fun w => fov (camera w)) ;;
  write_fov (f + deltaY * 0.05) ;;
  f <- read (fun w => fov (camera w)) ;;
  write_fov (Math_min (Math_max f 30) 100) ;;
  updateProjectionMatrix.

Definition revertView : Js unit :=
  current <- read controlsRef ;;
  match current with
  | None => ret tt
  | Some _ =>
      write_position (set_spread INITIAL_CAMERA_POSITION) ;;
      write_target (set_spread INITIAL_TARGET) ;;
      write_fov DEFAULT_FOV ;;
      updateProjectionMatrix ;;
      controls_update
  end.

Definition onClick (b : Button) : Js unit :=
  match b with
  | Up => rotate 0 (-0.1)
  | Left => rotate 0.1 0
  | Revert => revertView
  | Right => rotate (-0.1) 0
  | ZoomIn => zoom (-5)
  | Down => rotate 0 0.1
  | ZoomOut => zoom 5
  end.

End SingleFov.

(** ** Stores named in the statements *)

(** The field of view is within the range the handlers clamp to. *)
Definition fovInRange (w : World) : Prop := 30 <= fov (camera w) <= 100.

(** The store after a zoom by [delta]: the clamped sum written, the
    projection recomputed from it. *)
Definition zoomed (delta : R) (w : World) : World :=
  let f := clampFov (fov (camera w) + delta) in
  mkWorld (mkCamera f (position (camera w))) (controlsRef w)
          (initialTouchDistance w) (innerWidth w)
          (calls w ++ [UpdateProjectionMatrix f]).

(** The same store with another recorded pinch distance. *)
Definition recording (d : option R) (w : World) : World :=
  mkWorld (camera w) (controlsRef w) d (innerWidth w) (calls w).

(** The store a pinch move leaves: the default suppressed, the zoom by the
    scaled change of distance, the new distance recorded. *)
Definition pinched (initial currentDistance : R) (w : World) : World :=
  recording (Some currentDistance)
    (zoomed ((initial - currentDistance) * ZOOM_SENSITIVITY)
       (mkWorld (camera w) (controlsRef w) (initialTouchDistance w)
                (innerWidth w) (calls w ++ [PreventDefault]))).

(** The distance between the first two touch points. *)
Definition distance (t0 t1 : Touch) : R :=
  Math_sqrt ((clientX t0 - clientX t1) * (clientX t0 - clientX t1)
             + (clientY t0 - clientY t1) * (clientY t0 - clientY t1)).

(** The rotation [rotate] builds: the yaw quaternion about the world up
    axis, with the pitch quaternion about the world right axis multiplied
    onto it from the right. *)
Definition combined (angleX angleY : R) : THREE.Quaternion :=
  THREE.multiply (THREE.setFromAxisAngle (THREE.vec3 0 1 0) angleX)
                 (THREE.setFromAxisAngle (THREE.vec3 1 0 0) angleY).

(** A position turned by [q] about the point [t]: subtract, rotate, re-add. *)
Definition orbit (q : THREE.Quaternion) (p t : THREE.Vector3) : THREE.Vector3 :=
  THREE.add (THREE.applyQuaternion (THREE.sub p t) q) t.

(** The store after a rotation about the target [t]: the camera moved, then
    pointed at the target, then the control handle updated. *)
Definition rotated (angleX angleY : R) (t : THREE.Vector3) (w : World) : World :=
  let p := orbit (combined angleX angleY) (position (camera w)) t in
  mkWorld (mkCamera (fov (camera w)) p) (controlsRef w)
          (initialTouchDistance w) (innerWidth w)
          (calls w ++ [LookAt p t; ControlsUpdate p t]).

Definition defaultFov (width : R) : R :=
  if Rlt_dec width 640 then MOBILE_FOV else DESKTOP_FOV.

(** The store after a revert. *)
Definition reverted (w : World) : World :=
  let p := set_spread INITIAL_CAMERA_POSITION in
  let t := set_spread INITIAL_TARGET in
  let f := defaultFov (innerWidth w) in
  mkWorld (mkCamera f p) (Some (mkControls t))
          (initialTouchDistance w) (innerWidth w)
          (calls w ++ [UpdateProjectionMatrix f; ControlsUpdate p t]).

(** The camera's position as seen from the orbit target [t]; [lookAt]
    turns the camera to face along its opposite. *)
Definition offset (t : THREE.Vector3) (w : World) : THREE.Vector3 :=
  THREE.sub (position (camera w)) t.

(** The non-empty segments of a path, as the mount effect computes them. *)
Definition segments (path : string) : list string :=
  filter JsString.truthy (JsString.split "/" path).

(** The path of the file [file] of the scene [id] under the public root. *)
Definition scenePath (id file : string) : string :=
  ("/scenes/" ++ id ++ "/" ++ file)%string.

(** ** Further notions named in the statements *)



(** The cards of the gallery: [SCENES.map(makeScene)]. *)
Definition gallery : list SceneCatalog.Scene :=
  map SceneCatalog.makeScene SceneCatalog.SCENES.

(** Whether the character occurs in the string. *)
Fixpoint occurs (c : ascii) (s : string) : bool :=
  match s with
  | EmptyString => false
  | String d rest => Ascii.eqb d c || occurs c rest
  end.

(** A run of touchmove events. *)
Definition touchMoves (moves : list (list Touch)) : list Mutation :=
  map (fun touches => OnEvent (TouchMove touches)) moves.

(** What one mutation can do to the store: nothing, change the recorded
    pinch distance, zoom, zoom on a pinch move, rotate about the target of
    the attached handle, or revert with the handle attached. *)
Inductive Step (w : World) : World -> Prop :=
| step_none : Step w w
| step_record (d : option R) : Step w (recording d w)
| step_zoom (delta : R) : Step w (zoomed delta w)
| step_pinch (initial currentDistance : R) :
    Step w (pinched initial currentDistance w)
| step_rotate (angleX angleY : R) (c : OrbitControls) :
    controlsRef w = Some c -> Step w (rotated angleX angleY (target c) w)
| step_revert (c : OrbitControls) :
    controlsRef w = Some c -> Step w (reverted w).

(** * Theorems *)

(** ** The clamp *)

Lemma clampFov_range (f : R) : 30 <= clampFov f <= 100.
Proof.
  unfold clampFov, Math_min, Math_max, Rmin, Rmax.
  repeat destruct Rle_dec; lra.
Qed.

Lemma clampFov_inside (f : R) : 30 <= f <= 100 -> clampFov f = f.
Proof.
  intros Hf. unfold clampFov, Math_min, Math_max, Rmin, Rmax.
  repeat destruct Rle_dec; lra.
Qed.

Lemma clampFov_above (f : R) : 100 <= f -> clampFov f = 100.
Proof.
  intros Hf. unfold clampFov, Math_min, Math_max, Rmin, Rmax.
  repeat destruct Rle_dec; lra.
Qed.

Lemma clampFov_below (f : R) : f <= 30 -> clampFov f = 30.
Proof.
  intros Hf. unfold clampFov, Math_min, Math_max, Rmin, Rmax.
  repeat destruct Rle_dec; lra.
Qed.

(** ** What each handler leaves in the store *)

Lemma handleWheel_run (deltaY : R) (w : World) :
  handleWheel deltaY w = Some (tt, zoomed (deltaY * ZOOM_SENSITIVITY) w).
Proof. reflexivity. Qed.

Lemma zoom_attached (factor : R) (w : World) (c : OrbitControls) :
  controlsRef w = Some c -> zoom factor w = Some (tt, zoomed factor w).
Proof. intros H. unfold zoom, bind, read. rewrite H. reflexivity. Qed.

Lemma zoom_detached (factor : R) (w : World) :
  controlsRef w = None -> zoom factor w = Some (tt, w).
Proof. intros H. unfold zoom, bind, read. rewrite H. reflexivity. Qed.

Lemma handleTouchStart_two (t0 t1 : Touch) (w : World) :
  handleTouchStart [t0; t1] w = Some (tt, recording (Some (distance t0 t1)) w).
Proof. reflexivity. Qed.

Lemma handleTouchStart_other (touches : list Touch) (w : World) :
  List.length touches <> 2%nat ->
  handleTouchStart touches w = Some (tt, recording None w).
Proof.
  intros H. unfold handleTouchStart.
  destruct (Nat.eqb_spec (List.length touches) 2) as [E | _]; [contradiction | reflexivity].
Qed.

Lemma handleTouchEnd_run (w : World) :
  handleTouchEnd w = Some (tt, recording None w).
Proof. reflexivity. Qed.

Lemma handleTouchMove_tracking (t0 t1 : Touch) (initial : R) (w : World) :
  initialTouchDistance w = Some initial ->
  handleTouchMove [t0; t1] w = Some (tt, pinched initial (distance t0 t1) w).
Proof.
  intros H. unfold handleTouchMove, bind, read. rewrite H. reflexivity.
Qed.

Lemma handleTouchMove_idle (touches : list Touch) (w : World) :
  initialTouchDistance w = None -> handleTouchMove touches w = Some (tt, w).
Proof.
  intros H. unfold handleTouchMove, bind, read. rewrite H.
  destruct (Nat.eqb _ _); reflexivity.
Qed.

Lemma handleTouchMove_other (touches : list Touch) (w : World) :
  List.length touches <> 2%nat -> handleTouchMove touches w = Some (tt, w).
Proof.
  intros H. unfold handleTouchMove, bind, read.
  destruct (Nat.eqb_spec (List.length touches) 2) as [E | _]; [contradiction |].
  reflexivity.
Qed.

Lemma two_touches (touches : list Touch) :
  List.length touches = 2%nat -> exists t0 t1, touches = [t0; t1].
Proof.
  destruct touches as [| t0 [| t1 [| t2 rest]]]; simpl; try discriminate.
  intros _. exists t0, t1. reflexivity.
Qed.

Lemma rotate_run (angleX angleY : R) (w : World) :
  rotate angleX angleY w =
  Some (tt, match controlsRef w with
            | Some c => rotated angleX angleY (target c) w
            | None => w
            end).
Proof.
  unfold rotate, bind, read. destruct (controlsRef w) as [c |] eqn:E; [| reflexivity].
  unfold lookAt, controls_update, write_position, call, bind, read; simpl.
  rewrite E. unfold call, rotated, orbit, combined; simpl.
  rewrite E, <- app_assoc. reflexivity.
Qed.

Lemma zoom_run (factor : R) (w : World) :
  zoom factor w =
  Some (tt, match controlsRef w with
            | Some _ => zoomed factor w
            | None => w
            end).
Proof.
  unfold zoom, bind, read. destruct (controlsRef w); reflexivity.
Qed.

Lemma revertView_run (w : World) :
  revertView w =
  Some (tt, match controlsRef w with
            | Some _ => reverted w
            | None => w
            end).
Proof.
  unfold revertView, bind, read. destruct (controlsRef w) as [c |] eqn:E; [| reflexivity].
  unfold write_position, write_target, write_fov, updateProjectionMatrix,
    controls_update, call, bind, read; simpl.
  rewrite E. simpl. unfold reverted, defaultFov. rewrite <- app_assoc. reflexivity.
Qed.

(** ** The field of view stays clamped *)

Lemma zoomed_fovInRange (delta : R) (w : World) : fovInRange (zoomed delta w).
Proof. unfold fovInRange, zoomed; simpl. apply clampFov_range. Qed.

Lemma defaultFov_range (width : R) : 30 <= defaultFov width <= 100.
Proof.
  unfold defaultFov, MOBILE_FOV, DESKTOP_FOV. destruct Rlt_dec; lra.
Qed.

Lemma rotate_fov (angleX angleY : R) (w : World) :
  exists w', rotate angleX angleY w = Some (tt, w')
             /\ fov (camera w') = fov (camera w).
Proof.
  rewrite rotate_run. eexists; split; [reflexivity |].
  destruct (controlsRef w); reflexivity.
Qed.

Lemma zoom_fov (factor : R) (w : World) :
  exists w', zoom factor w = Some (tt, w')
             /\ (fov (camera w') = fov (camera w) \/ fovInRange w').
Proof.
  rewrite zoom_run. eexists; split; [reflexivity |].
  destruct (controlsRef w); [right; apply zoomed_fovInRange | left; reflexivity].
Qed.

Lemma revertView_fov (w : World) :
  exists w', revertView w = Some (tt, w')
             /\ (fov (camera w') = fov (camera w) \/ fovInRange w').
Proof.
  rewrite revertView_run. eexists; split; [reflexivity |].
  destruct (controlsRef w); [right | left; reflexivity].
  unfold fovInRange, reverted; simpl. apply defaultFov_range.
Qed.

Lemma dispatch_fov (e : Event) (w : World) :
  exists w', dispatch e w = Some (tt, w')
             /\ (fov (camera w') = fov (camera w) \/ fovInRange w').
Proof.
  destruct e as [deltaY | touches | touches | | b]; simpl.
  - rewrite handleWheel_run. eexists; split; [reflexivity |].
    right. apply zoomed_fovInRange.
  - destruct (Nat.eq_dec (List.length touches) 2) as [E | E].
    + destruct (two_touches _ E) as (t0 & t1 & ->).
      rewrite handleTouchStart_two. eexists; split; [reflexivity | left; reflexivity].
    + rewrite handleTouchStart_other by exact E.
      eexists; split; [reflexivity | left; reflexivity].
  - destruct (Nat.eq_dec (List.length touches) 2) as [E | E].
    + destruct (two_touches _ E) as (t0 & t1 & ->).
      destruct (initialTouchDistance w) as [initial |] eqn:R.
      * rewrite (handleTouchMove_tracking _ _ _ _ R).
        eexists; split; [reflexivity |]. right.
        unfold fovInRange, pinched, recording; simpl. apply clampFov_range.
      * rewrite handleTouchMove_idle by exact R.
        eexists; split; [reflexivity | left; reflexivity].
    + rewrite handleTouchMove_other by exact E.
      eexists; split; [reflexivity | left; reflexivity].
  - rewrite handleTouchEnd_run. eexists; split; [reflexivity | left; reflexivity].
  - destruct b; simpl;
      try apply zoom_fov; try apply revertView_fov;
      match goal with
      | |- context [rotate ?a ?b] =>
          destruct (rotate_fov a b w) as (w' & -> & Hf);
          exists w'; split; [reflexivity | left; exact Hf]
      end.
Qed.

Lemma perform_fov (m : Mutation) (w : World) :
  exists w', perform m w = Some (tt, w')
             /\ (fov (camera w') = fov (camera w) \/ fovInRange w').
Proof.
  destruct m as [e | factor | angleX angleY |]; simpl.
  - apply dispatch_fov.
  - apply zoom_fov.
  - destruct (rotate_fov angleX angleY w) as (w' & -> & Hf).
    exists w'; split; [reflexivity | left; exact Hf].
  - apply revertView_fov.
Qed.

(** C1.  Every mutation returns, and the field of view it leaves is either
    the one it found or a value in [30,100], whatever the delta; hence from
    a field of view in [30,100] (the mounted one is) every sequence of
    wheel, pinch, button and direct zoom, rotate and revert mutations ends
    with the field of view in [30,100]. *)
Theorem fov_clamped_after_every_mutation :
  (forall (m : Mutation) (w : World),
      exists w', perform m w = Some (tt, w')
                 /\ (fov (camera w') = fov (camera w) \/ fovInRange w'))
  /\ (forall (deltaY : R) (w : World),
         exists w', handleWheel deltaY w = Some (tt, w') /\ fovInRange w')
  /\ (forall (factor : R) (w : World) (c : OrbitControls),
         controlsRef w = Some c ->
         exists w', zoom factor w = Some (tt, w') /\ fovInRange w')
  /\ (forall (t0 t1 : Touch) (initial : R) (w : World),
         initialTouchDistance w = Some initial ->
         exists w', handleTouchMove [t0; t1] w = Some (tt, w') /\ fovInRange w')
  /\ (forall (ms : list Mutation) (w : World),
         fovInRange w ->
         exists w', perform_all ms w = Some (tt, w') /\ fovInRange w').
Proof.
  split; [exact perform_fov |].
  split.
  { intros deltaY w. rewrite handleWheel_run.
    eexists; split; [reflexivity | apply zoomed_fovInRange]. }
  split.
  { intros factor w c H. rewrite zoom_run, H.
    eexists; split; [reflexivity | apply zoomed_fovInRange]. }
  split.
  { intros t0 t1 initial w H. rewrite (handleTouchMove_tracking _ _ _ _ H).
    eexists; split; [reflexivity |].
    unfold fovInRange, pinched, recording; simpl. apply clampFov_range. }
  induction ms as [| m rest IH]; intros w Hw.
  - exists w. split; [reflexivity | exact Hw].
  - destruct (perform_fov m w) as (w1 & E1 & H1).
    assert (fovInRange w1) as Hw1.
    { destruct H1 as [Heq | Hin]; [| exact Hin].
      unfold fovInRange in *. rewrite Heq. exact Hw. }
    destruct (IH w1 Hw1) as (w2 & E2 & H2).
    exists w2. split; [| exact H2].
    simpl. unfold bind. rewrite E1. exact E2.
Qed.

(** A desktop session: scroll far out, zoom by an arbitrary factor, pinch,
    press a zoom button, revert. *)
Lemma fov_clamped_after_every_mutation_witness :
  fovInRange (mounted 1024)
  /\ (exists w', perform_all [OnEvent (Wheel 100000); ZoomBy (-12345);
                              OnEvent (TouchStart [mkTouch 0 0; mkTouch 3 4]);
                              OnEvent (TouchMove [mkTouch 0 0; mkTouch 300 400]);
                              OnEvent (Click ZoomOut); RevertCall]
                             (mounted 1024) = Some (tt, w')
                  /\ fovInRange w')
  /\ (exists w', zoom 1000 (mounted 1024) = Some (tt, w') /\ fovInRange w')
  /\ (exists w', handleTouchMove [mkTouch 0 0; mkTouch 300 400]
                   (recording (Some 5) (mounted 1024)) = Some (tt, w')
                 /\ fovInRange w').
Proof.
  assert (fovInRange (mounted 1024)) as M.
  { unfold fovInRange, mounted, MOBILE_FOV, DESKTOP_FOV; simpl.
    destruct Rlt_dec; lra. }
  destruct fov_clamped_after_every_mutation as (_ & _ & Hzoom & Hpinch & Hall).
  split; [exact M |].
  split; [apply Hall, M |].
  split; [apply (Hzoom 1000 (mounted 1024) (mkControls (THREE.vec3 0 0 0))); reflexivity |].
  apply (Hpinch _ _ 5). reflexivity.
Defined.

(** ** Quaternion facts the rotation relies on *)

Lemma lengthSq_applyQuaternion (v : THREE.Vector3) (q : THREE.Quaternion) :
  THREE.lengthSq (THREE.applyQuaternion v q)
  = THREE.normSq q * THREE.normSq q * THREE.lengthSq v.
Proof.
  destruct v as [vx vy vz], q as [qx qy qz qw].
  unfold THREE.lengthSq, THREE.applyQuaternion, THREE.normSq; simpl. ring.
Qed.

(** On unit quaternions, the only ones [rotate] builds, the two ways the
    library has written [applyQuaternion] give the same vector. *)
Lemma applyQuaternion_cross_unit (v : THREE.Vector3) (q : THREE.Quaternion) :
  THREE.normSq q = 1 ->
  THREE.applyQuaternion_cross v q = THREE.applyQuaternion v q.
Proof.
  destruct v as [vx vy vz], q as [qx qy qz qw].
  unfold THREE.normSq, THREE.applyQuaternion, THREE.applyQuaternion_cross; simpl.
  intros H.
  assert (qw * qw = 1 - qx * qx - qy * qy - qz * qz) as W by lra.
  f_equal.
  - transitivity (vx * (qw * qw + qx * qx - qy * qy - qz * qz)
                  + 2 * (qx * qy * vy + qx * qz * vz + qw * qy * vz - qw * qz * vy));
      [rewrite W; ring | ring].
  - transitivity (vy * (qw * qw - qx * qx + qy * qy - qz * qz)
                  + 2 * (qx * qy * vx + qy * qz * vz + qw * qz * vx - qw * qx * vz));
      [rewrite W; ring | ring].
  - transitivity (vz * (qw * qw - qx * qx - qy * qy + qz * qz)
                  + 2 * (qx * qz * vx + qy * qz * vy + qw * qx * vy - qw * qy * vx));
      [rewrite W; ring | ring].
Qed.

Lemma normSq_multiply (a b : THREE.Quaternion) :
  THREE.normSq (THREE.multiply a b) = THREE.normSq a * THREE.normSq b.
Proof.
  destruct a as [ax ay az aw], b as [bx by' bz bw].
  unfold THREE.normSq, THREE.multiply; simpl. ring.
Qed.

Lemma sin_cos_unit (a : R) : sin a * sin a + cos a * cos a = 1.
Proof. pose proof (sin2_cos2 a) as H. unfold Rsqr in H. exact H. Qed.

Lemma normSq_setFromAxisAngle (axis : THREE.Vector3) (angle : R) :
  THREE.lengthSq axis = 1 ->
  THREE.normSq (THREE.setFromAxisAngle axis angle) = 1.
Proof.
  destruct axis as [ax ay az].
  unfold THREE.lengthSq, THREE.normSq, THREE.setFromAxisAngle; simpl.
  intros H. pose proof (sin_cos_unit (angle / 2)) as U.
  replace (ax * sin (angle / 2) * (ax * sin (angle / 2))
           + ay * sin (angle / 2) * (ay * sin (angle / 2))
           + az * sin (angle / 2) * (az * sin (angle / 2))
           + cos (angle / 2) * cos (angle / 2))
    with ((ax * ax + ay * ay + az * az) * (sin (angle / 2) * sin (angle / 2))
          + cos (angle / 2) * cos (angle / 2)) by ring.
  rewrite H. lra.
Qed.

Lemma normSq_combined (angleX angleY : R) :
  THREE.normSq (combined angleX angleY) = 1.
Proof.
  unfold combined. rewrite normSq_multiply.
  rewrite !normSq_setFromAxisAngle; [lra | |];
    unfold THREE.lengthSq; simpl; ring.
Qed.

Lemma sub_add_cancel (v t : THREE.Vector3) : THREE.sub (THREE.add v t) t = v.
Proof.
  destruct v as [a b c], t as [d e f]. unfold THREE.sub, THREE.add; simpl.
  f_equal; ring.
Qed.


Lemma offset_orbit (q : THREE.Quaternion) (p t : THREE.Vector3) :
  THREE.sub (orbit q p t) t = THREE.applyQuaternion (THREE.sub p t) q.
Proof. unfold orbit. apply sub_add_cancel. Qed.

Lemma length_orbit (angleX angleY : R) (p t : THREE.Vector3) :
  THREE.length (THREE.sub (orbit (combined angleX angleY) p t) t)
  = THREE.length (THREE.sub p t).
Proof.
  unfold THREE.length. f_equal.
  rewrite offset_orbit, lengthSq_applyQuaternion, normSq_combined. ring.
Qed.

(** The combined quaternion, component by component.  The sign of its
    third component is what tells yaw * pitch from pitch * yaw. *)
Lemma combined_components (angleX angleY : R) :
  combined angleX angleY
  = THREE.quat (cos (angleX / 2) * sin (angleY / 2))
               (sin (angleX / 2) * cos (angleY / 2))
               (- (sin (angleX / 2) * sin (angleY / 2)))
               (cos (angleX / 2) * cos (angleY / 2)).
Proof.
  unfold combined, THREE.multiply, THREE.setFromAxisAngle; simpl.
  f_equal; ring.
Qed.

(** ** The guarded skip *)

(** C8.  With the control handle not attached ([controlsRef.current] is
    null), rotate, zoom and revert return normally and leave the whole
    store as it was: field of view, camera position, orbit target, and no
    call made. *)
Theorem detached_operations_are_noops (w : World) :
  controlsRef w = None ->
  (forall angleX angleY : R, rotate angleX angleY w = Some (tt, w))
  /\ (forall factor : R, zoom factor w = Some (tt, w))
  /\ revertView w = Some (tt, w).
Proof.
  intros H. repeat split; intros.
  - rewrite rotate_run, H. reflexivity.
  - rewrite zoom_run, H. reflexivity.
  - rewrite revertView_run, H. reflexivity.
Qed.

(** The store before the canvas mounts: a camera, no control handle. *)
Lemma detached_operations_are_noops_witness :
  let w := mkWorld (mkCamera 70 (THREE.vec3 0 0 0.1)) None None 1024 [] in
  controlsRef w = None
  /\ rotate 0.1 0 w = Some (tt, w)
  /\ zoom 5 w = Some (tt, w)
  /\ revertView w = Some (tt, w).
Proof.
  intros w.
  pose proof (detached_operations_are_noops w eq_refl) as (Hr & Hz & Hv).
  split; [reflexivity |].
  split; [apply Hr |]. split; [apply Hz | exact Hv].
Defined.

(** ** Revert *)


(** C7.  Revert always returns, and reverting again (the viewport width is
    a field of the store no revert changes) leaves the same field of view,
    camera position and orbit target as the first revert did. *)
Theorem revert_idempotent (w : World) :
  exists w1 w2,
    revertView w = Some (tt, w1)
    /\ revertView w1 = Some (tt, w2)
    /\ innerWidth w1 = innerWidth w
    /\ viewState w2 = viewState w1.
Proof.
  rewrite revertView_run.
  destruct (controlsRef w) as [c |] eqn:E.
  - exists (reverted w), (reverted (reverted w)).
    split; [reflexivity |]. split; [rewrite revertView_run; reflexivity |].
    split; reflexivity.
  - exists w, w. split; [reflexivity |].
    split; [rewrite revertView_run, E; reflexivity |].
    split; reflexivity.
Qed.

(** ** What rotate and zoom leave alone *)

(** C9.  Rotate leaves the orbit target as it was and keeps the distance of
    the camera from the target; zoom leaves the camera position and the
    orbit target as they were, and so do the wheel and pinch handlers;
    revert is the operation that puts both back to their initial values. *)
Theorem rotate_zoom_frame (w : World) :
  (forall angleX angleY : R,
      exists w', rotate angleX angleY w = Some (tt, w')
                 /\ controlsRef w' = controlsRef w
                 /\ fov (camera w') = fov (camera w)
                 /\ match controlsRef w with
                    | Some c => THREE.length (offset (target c) w')
                                = THREE.length (offset (target c) w)
                    | None => position (camera w') = position (camera w)
                    end)
  /\ (forall factor : R,
         exists w', zoom factor w = Some (tt, w')
                    /\ position (camera w') = position (camera w)
                    /\ controlsRef w' = controlsRef w)
  /\ (forall deltaY : R,
         exists w', handleWheel deltaY w = Some (tt, w')
                    /\ position (camera w') = position (camera w)
                    /\ controlsRef w' = controlsRef w)
  /\ (forall touches : list Touch,
         exists w', handleTouchMove touches w = Some (tt, w')
                    /\ position (camera w') = position (camera w)
                    /\ controlsRef w' = controlsRef w)
  /\ (exists w', revertView w = Some (tt, w')
                 /\ match controlsRef w with
                    | Some _ =>
                        position (camera w') = THREE.vec3 0 0 0.1
                        /\ controlsRef w' = Some (mkControls (THREE.vec3 0 0 0))
                    | None => w' = w
                    end).
Proof.
  split; [| split; [| split; [| split]]].
  - intros angleX angleY. rewrite rotate_run. eexists; split; [reflexivity |].
    destruct (controlsRef w) as [c |] eqn:E; simpl.
    + rewrite E. repeat split. unfold offset, rotated; simpl. apply length_orbit.
    + rewrite E. repeat split.
  - intros factor. rewrite zoom_run. eexists; split; [reflexivity |].
    destruct (controlsRef w) as [c |] eqn:E; simpl; [| rewrite E]; split; auto.
  - intros deltaY. rewrite handleWheel_run. eexists; split; [reflexivity |].
    split; reflexivity.
  - intros touches.
    destruct (Nat.eq_dec (List.length touches) 2) as [L | L].
    + destruct (two_touches _ L) as (t0 & t1 & ->).
      destruct (initialTouchDistance w) as [initial |] eqn:I.
      * rewrite (handleTouchMove_tracking _ _ _ _ I).
        eexists; split; [reflexivity |]. split; reflexivity.
      * rewrite handleTouchMove_idle by exact I.
        eexists; split; [reflexivity |]. split; reflexivity.
    + rewrite handleTouchMove_other by exact L.
      eexists; split; [reflexivity |]. split; reflexivity.
  - rewrite revertView_run. eexists; split; [reflexivity |].
    destruct (controlsRef w) as [c |]; simpl; auto.
Qed.

(** ** The steps of rotate *)

(** C3.  With the handle attached, rotate builds the yaw quaternion about
    (0,1,0) from the first angle and the pitch quaternion about (1,0,0) from
    the second, multiplies the pitch onto the yaw from the right, writes the
    camera position as target + q * (position - target) * conj(q), then calls
    lookAt towards the target from that new position, then the control
    handle's update, and touches nothing else. *)
Theorem rotate_steps (yawDelta pitchDelta : R) (w : World) (c : OrbitControls) :
  controlsRef w = Some c ->
  let yaw := THREE.setFromAxisAngle (THREE.vec3 0 1 0) yawDelta in
  let pitch := THREE.setFromAxisAngle (THREE.vec3 1 0 0) pitchDelta in
  let q := THREE.multiply yaw pitch in
  let relative := THREE.sub (position (camera w)) (target c) in
  let moved := THREE.add (THREE.applyQuaternion relative q) (target c) in
  q = THREE.quat (cos (yawDelta / 2) * sin (pitchDelta / 2))
                 (sin (yawDelta / 2) * cos (pitchDelta / 2))
                 (- (sin (yawDelta / 2) * sin (pitchDelta / 2)))
                 (cos (yawDelta / 2) * cos (pitchDelta / 2))
  /\ rotate yawDelta pitchDelta w
     = Some (tt, mkWorld (mkCamera (fov (camera w)) moved) (Some c)
                         (initialTouchDistance w) (innerWidth w)
                         (calls w ++ [LookAt moved (target c);
                                      ControlsUpdate moved (target c)])).
Proof.
  intros H yaw pitch q relative moved. split.
  - apply combined_components.
  - rewrite rotate_run, H. unfold rotated. rewrite H. reflexivity.
Qed.

Lemma rotate_steps_witness :
  controlsRef (mounted 1024) = Some (mkControls (THREE.vec3 0 0 0))
  /\ exists w', rotate 0.1 0 (mounted 1024) = Some (tt, w')
                /\ controlsRef w' = Some (mkControls (THREE.vec3 0 0 0)).
Proof.
  split; [reflexivity |].
  pose proof (rotate_steps 0.1 0 (mounted 1024) _ eq_refl) as H.
  cbv zeta in H. destruct H as [_ H].
  eexists. split; [exact H | reflexivity].
Defined.

(** ** Rotating there and back *)














(** ** The pinch gesture *)

Lemma distance_horizontal (a : R) :
  0 <= a -> distance (mkTouch 0 0) (mkTouch a 0) = a.
Proof.
  intros H. unfold distance, Math_sqrt; simpl.
  replace ((0 - a) * (0 - a) + (0 - 0) * (0 - 0)) with (a * a) by ring.
  apply sqrt_square, H.
Qed.

Lemma mounted_desktop_fov : fov (camera (mounted 1024)) = 70.
Proof.
  unfold mounted, DESKTOP_FOV, MOBILE_FOV; simpl. destruct Rlt_dec; [lra | reflexivity].
Qed.

(** C4, as the code has it.  After a touchstart with two points 100 apart,
    a touchmove with two points 80 apart writes the field of view clamped
    from its old value plus (100-80)*0.15, which is an increase by exactly
    that amount when the old value is at most 97 (and at least 27), and
    records 80; a second touchmove at 80 leaves the field of view as it is;
    touchend clears the record; a touchstart with one point records
    nothing; and every later touchmove leaves the store untouched. *)
Theorem pinch_sequence (w : World) (s0 s1 m0 m1 n0 n1 t : Touch) :
  distance s0 s1 = 100 -> distance m0 m1 = 80 -> distance n0 n1 = 80 ->
  exists w1 w2 w3 w4 w5,
    handleTouchStart [s0; s1] w = Some (tt, w1)
    /\ initialTouchDistance w1 = Some 100
    /\ handleTouchMove [m0; m1] w1 = Some (tt, w2)
    /\ fov (camera w2) = clampFov (fov (camera w) + (100 - 80) * ZOOM_SENSITIVITY)
    /\ (27 <= fov (camera w) <= 97 ->
        fov (camera w2) = fov (camera w) + (100 - 80) * 0.15)
    /\ initialTouchDistance w2 = Some 80
    /\ handleTouchMove [n0; n1] w2 = Some (tt, w3)
    /\ fov (camera w3) = fov (camera w2)
    /\ initialTouchDistance w3 = Some 80
    /\ handleTouchEnd w3 = Some (tt, w4)
    /\ initialTouchDistance w4 = None
    /\ handleTouchStart [t] w4 = Some (tt, w5)
    /\ initialTouchDistance w5 = None
    /\ fov (camera w5) = fov (camera w2)
    /\ forall later : list Touch, handleTouchMove later w5 = Some (tt, w5).
Proof.
  intros Hs Hm Hn.
  set (w1 := recording (Some 100) w).
  set (w2 := pinched 100 80 w1).
  set (w3 := pinched 80 80 w2).
  set (w4 := recording None w3).
  exists w1, w2, w3, w4, w4.
  assert (fov (camera w2) = clampFov (fov (camera w) + (100 - 80) * ZOOM_SENSITIVITY))
    as F2 by reflexivity.
  assert (fov (camera w3) = fov (camera w2)) as F3.
  { change (clampFov (fov (camera w2) + (80 - 80) * ZOOM_SENSITIVITY) = fov (camera w2)).
    replace (fov (camera w2) + (80 - 80) * ZOOM_SENSITIVITY) with (fov (camera w2))
      by (unfold ZOOM_SENSITIVITY; lra).
    apply clampFov_inside. rewrite F2. apply clampFov_range. }
  split; [rewrite handleTouchStart_two, Hs; reflexivity |].
  split; [reflexivity |].
  split; [rewrite (handleTouchMove_tracking m0 m1 100 w1 eq_refl), Hm; reflexivity |].
  split; [exact F2 |].
  split.
  { intros Hf. rewrite F2. unfold ZOOM_SENSITIVITY.
    apply clampFov_inside. lra. }
  split; [reflexivity |].
  split; [rewrite (handleTouchMove_tracking n0 n1 80 w2 eq_refl), Hn; reflexivity |].
  split; [exact F3 |].
  split; [reflexivity |].
  split; [apply handleTouchEnd_run |].
  split; [reflexivity |].
  split; [reflexivity |].
  split; [reflexivity |].
  split; [exact F3 |].
  intros later. apply handleTouchMove_idle. reflexivity.
Qed.

Lemma pinch_sequence_witness :
  distance (mkTouch 0 0) (mkTouch 100 0) = 100
  /\ distance (mkTouch 0 0) (mkTouch 80 0) = 80
  /\ exists w2,
       (handleTouchStart [mkTouch 0 0; mkTouch 100 0] ;;
        handleTouchMove [mkTouch 0 0; mkTouch 80 0]) (mounted 1024) = Some (tt, w2)
       /\ fov (camera w2) = 73.
Proof.
  assert (distance (mkTouch 0 0) (mkTouch 100 0) = 100) as D100
    by (apply distance_horizontal; lra).
  assert (distance (mkTouch 0 0) (mkTouch 80 0) = 80) as D80
    by (apply distance_horizontal; lra).
  split; [exact D100 |]. split; [exact D80 |].
  destruct (pinch_sequence (mounted 1024) (mkTouch 0 0) (mkTouch 100 0)
              (mkTouch 0 0) (mkTouch 80 0) (mkTouch 0 0) (mkTouch 80 0)
              (mkTouch 0 0) D100 D80 D80)
    as (w1 & w2 & w3 & w4 & w5 & H1 & _ & H2 & _ & H3 & _).
  exists w2. split.
  - unfold bind. rewrite H1. exact H2.
  - rewrite H3; rewrite mounted_desktop_fov; lra.
Defined.

(** C4, as stated, fails at the upper bound.  Scroll the wheel by 200 on the
    mounted view: the field of view is 100.  A pinch from 100 to 80 then
    leaves it at 100; it does not increase by (100-80)*0.15. *)
Lemma pinch_at_upper_bound_no_increase :
  exists w0 w1 w2,
    handleWheel 200 (mounted 1024) = Some (tt, w0)
    /\ fov (camera w0) = 100
    /\ handleTouchStart [mkTouch 0 0; mkTouch 100 0] w0 = Some (tt, w1)
    /\ initialTouchDistance w1 = Some 100
    /\ handleTouchMove [mkTouch 0 0; mkTouch 80 0] w1 = Some (tt, w2)
    /\ initialTouchDistance w2 = Some 80
    /\ fov (camera w2) = 100
    /\ fov (camera w2) <> fov (camera w0) + (100 - 80) * ZOOM_SENSITIVITY.
Proof.
  assert (distance (mkTouch 0 0) (mkTouch 100 0) = 100) as D100
    by (apply distance_horizontal; lra).
  assert (distance (mkTouch 0 0) (mkTouch 80 0) = 80) as D80
    by (apply distance_horizontal; lra).
  set (w0 := zoomed (200 * ZOOM_SENSITIVITY) (mounted 1024)).
  set (w1 := recording (Some 100) w0).
  set (w2 := pinched 100 80 w1).
  assert (fov (camera w0) = 100) as F0.
  { change (clampFov (fov (camera (mounted 1024)) + 200 * ZOOM_SENSITIVITY) = 100).
    rewrite mounted_desktop_fov. unfold ZOOM_SENSITIVITY.
    apply clampFov_above. lra. }
  assert (fov (camera w2) = 100) as F2.
  { change (clampFov (fov (camera w0) + (100 - 80) * ZOOM_SENSITIVITY) = 100).
    rewrite F0. unfold ZOOM_SENSITIVITY. apply clampFov_above. lra. }
  exists w0, w1, w2.
  split; [apply handleWheel_run |].
  split; [exact F0 |].
  split; [rewrite handleTouchStart_two, D100; reflexivity |].
  split; [reflexivity |].
  split; [rewrite (handleTouchMove_tracking _ _ 100 w1 eq_refl), D80; reflexivity |].
  split; [reflexivity |].
  split; [exact F2 |].
  rewrite F2, F0. unfold ZOOM_SENSITIVITY. lra.
Qed.

(** ** The catalog *)

Lemma includes_In (l : list string) (s : string) :
  SceneCatalog.includes l s = true <-> In s l.
Proof.
  unfold SceneCatalog.includes. rewrite existsb_exists. split.
  - intros (x & Hx & E). apply String.eqb_eq in E. subst x. exact Hx.
  - intros H. exists s. split; [exact H | apply String.eqb_refl].
Qed.

Lemma findItemById_known (id : string) :
  In id SceneCatalog.SCENES ->
  SceneCatalog.findItemById id = Some (SceneCatalog.makeScene id).
Proof.
  intros H. unfold SceneCatalog.findItemById.
  apply includes_In in H. rewrite H. reflexivity.
Qed.

Lemma findItemById_unknown (id : string) :
  ~ In id SceneCatalog.SCENES -> SceneCatalog.findItemById id = None.
Proof.
  intros H. unfold SceneCatalog.findItemById.
  destruct (SceneCatalog.includes SceneCatalog.SCENES id) eqn:E; [| reflexivity].
  apply includes_In in E. contradiction.
Qed.

Lemma append_assoc (a b c : string) : ((a ++ b) ++ c = a ++ b ++ c)%string.
Proof. induction a as [| ch a IH]; simpl; [reflexivity | rewrite IH; reflexivity]. Qed.

Lemma makeScene_imagePaths (id : string) :
  SceneCatalog.imagePaths (SceneCatalog.makeScene id)
  = map (scenePath id) SceneCatalog.samplerOutputs.
Proof.
  unfold SceneCatalog.imagePaths, SceneCatalog.loadOrder, SceneCatalog.makeScene,
    SceneCatalog.samplerOutputs, scenePath.
  cbn [SceneCatalog.faces SceneCatalog.layout SceneCatalog.right SceneCatalog.left
       SceneCatalog.top SceneCatalog.bottom SceneCatalog.front SceneCatalog.back
       map app].
  rewrite !append_assoc. reflexivity.
Qed.

(** C5.  The lookup returns a descriptor exactly for the ids of the fixed
    list (and then the one [makeScene] builds), and null for every other
    id; for "aurora" the six face paths and the layout path are the seven
    files under /scenes/aurora/; for "not_a_scene" it returns null.  The
    lookup is a function of its argument alone: it reads and writes no
    store. *)
Theorem resolve_known_ids_only :
  (forall id : string,
      (exists d, SceneCatalog.findItemById id = Some d) <-> In id SceneCatalog.SCENES)
  /\ (forall id : string,
         ~ In id SceneCatalog.SCENES -> SceneCatalog.findItemById id = None)
  /\ (exists d,
         SceneCatalog.findItemById "aurora" = Some d
         /\ SceneCatalog.loadOrder (SceneCatalog.faces d)
            = ["/scenes/aurora/right.png"; "/scenes/aurora/left.png";
               "/scenes/aurora/top.png"; "/scenes/aurora/bottom.png";
               "/scenes/aurora/front.png"; "/scenes/aurora/back.png"]%string
         /\ List.length (SceneCatalog.loadOrder (SceneCatalog.faces d)) = 6%nat
         /\ SceneCatalog.layout d = "/scenes/aurora/layout.png"%string
         /\ forallb (String.prefix "/scenes/aurora/") (SceneCatalog.imagePaths d) = true)
  /\ SceneCatalog.findItemById "not_a_scene" = None.
Proof.
  split; [| split; [| split]].
  - intros id. split.
    + intros (d & H). unfold SceneCatalog.findItemById in H.
      destruct (SceneCatalog.includes SceneCatalog.SCENES id) eqn:E; [| discriminate].
      apply includes_In, E.
    + intros H. eexists. apply findItemById_known, H.
  - exact findItemById_unknown.
  - eexists. split; [reflexivity |]. repeat split.
  - reflexivity.
Qed.

Lemma resolve_known_ids_only_witness :
  In "tropical_sea"%string SceneCatalog.SCENES
  /\ (exists d, SceneCatalog.findItemById "tropical_sea" = Some d)
  /\ ~ In "canyon"%string SceneCatalog.SCENES
  /\ SceneCatalog.findItemById "canyon" = None.
Proof.
  destruct resolve_known_ids_only as (Hiff & Hnone & _).
  assert (In "tropical_sea"%string SceneCatalog.SCENES) as K
    by (simpl; right; right; left; reflexivity).
  assert (~ In "canyon"%string SceneCatalog.SCENES) as U.
  { simpl. intros [H | [H | [H | [H | []]]]]; discriminate. }
  split; [exact K |]. split; [apply Hiff, K |].
  split; [exact U | apply Hnone, U].
Defined.

(** C10.  For every id of the list the lookup returns a descriptor with
    that id whose seven image paths are /scenes/<id>/ followed by right.png,
    left.png, top.png, bottom.png, front.png, back.png and layout.png: the
    file names the sampler is documented to write into its save directory. *)
Theorem resolve_paths_match_sampler_files (id : string) :
  In id SceneCatalog.SCENES ->
  exists d,
    SceneCatalog.findItemById id = Some d
    /\ SceneCatalog.id d = id
    /\ SceneCatalog.imagePaths d
       = [scenePath id "right.png"; scenePath id "left.png";
          scenePath id "top.png"; scenePath id "bottom.png";
          scenePath id "front.png"; scenePath id "back.png";
          scenePath id "layout.png"]
    /\ SceneCatalog.imagePaths d = map (scenePath id) SceneCatalog.samplerOutputs.
Proof.
  intros H. exists (SceneCatalog.makeScene id).
  split; [apply findItemById_known, H |].
  split; [reflexivity |].
  split; apply makeScene_imagePaths.
Qed.

Lemma resolve_paths_match_sampler_files_witness :
  In "underwater_ruins"%string SceneCatalog.SCENES
  /\ exists d,
       SceneCatalog.findItemById "underwater_ruins" = Some d
       /\ SceneCatalog.imagePaths d
          = ["/scenes/underwater_ruins/right.png"; "/scenes/underwater_ruins/left.png";
             "/scenes/underwater_ruins/top.png"; "/scenes/underwater_ruins/bottom.png";
             "/scenes/underwater_ruins/front.png"; "/scenes/underwater_ruins/back.png";
             "/scenes/underwater_ruins/layout.png"]%string.
Proof.
  assert (In "underwater_ruins"%string SceneCatalog.SCENES) as K
    by (simpl; right; right; right; left; reflexivity).
  split; [exact K |].
  destruct (resolve_paths_match_sampler_files _ K) as (d & Hd & _ & Hp & _).
  exists d. split; [exact Hd | exact Hp].
Defined.

(** ** The router *)

Lemma segments_truthy (path : string) :
  Forall (fun s => JsString.truthy s = true) (segments path).
Proof.
  unfold segments. apply Forall_forall. intros s H.
  apply filter_In in H. apply H.
Qed.

Lemma truthy_nonempty (s : string) : JsString.truthy s = true <-> s <> EmptyString.
Proof.
  destruct s; simpl; split; intros H; try reflexivity; try discriminate.
  contradiction H; reflexivity.
Qed.

Lemma urlSceneLoading_run (a : Router.App) :
  Router.urlSceneLoading a =
  match segments (Router.pathname a) with
  | marker :: candidate :: _ =>
      if String.eqb marker "viewer" && SceneCatalog.includes SceneCatalog.SCENES candidate
      then Router.setSelected (Some (SceneCatalog.makeScene candidate)) a
      else a
  | _ => a
  end.
Proof.
  unfold Router.urlSceneLoading. fold (segments (Router.pathname a)).
  pose proof (segments_truthy (Router.pathname a)) as T.
  destruct (segments (Router.pathname a)) as [| marker [| candidate rest]];
    try reflexivity.
  cbn [nth_error].
  inversion T as [| ? ? _ T']; subst. inversion T' as [| ? ? Hc _]; subst.
  rewrite Hc, andb_true_r. unfold SceneCatalog.findItemById.
  destruct (String.eqb marker "viewer"); cbn [andb]; [| reflexivity].
  destruct (SceneCatalog.includes SceneCatalog.SCENES candidate); reflexivity.
Qed.

(** C6.  The mount effect keeps the non-empty segments of the path; it
    selects a scene exactly when the first is "viewer" and the second is an
    id of the catalog (it then selects that scene), and otherwise leaves the
    application, its selection included, as it was.  Loaded at
    /viewer/aurora the selected id is aurora; loaded at
    /viewer/unknown_scene or at / nothing is selected. *)
Theorem url_scene_loading :
  (forall path : string, Forall (fun s => s <> EmptyString) (segments path))
  /\ (forall (a : Router.App) (candidate : string) (rest : list string),
         segments (Router.pathname a) = "viewer"%string :: candidate :: rest ->
         In candidate SceneCatalog.SCENES ->
         Router.urlSceneLoading a
         = Router.setSelected (Some (SceneCatalog.makeScene candidate)) a)
  /\ (forall a : Router.App,
         (forall candidate rest,
             segments (Router.pathname a) = "viewer"%string :: candidate :: rest ->
             ~ In candidate SceneCatalog.SCENES) ->
         Router.urlSceneLoading a = a)
  /\ Router.selectedId (Router.load "/viewer/aurora") = Some "aurora"%string
  /\ Router.selectedId (Router.load "/viewer/unknown_scene") = None
  /\ (forall a : Router.App,
         Router.pathname a = "/viewer/unknown_scene"%string ->
         Router.urlSceneLoading a = a)
  /\ Router.selectedId (Router.load "/") = None.
Proof.
  split; [| split; [| split; [| split; [| split; [| split]]]]].
  - intros path. eapply Forall_impl; [| apply segments_truthy].
    intros s. apply truthy_nonempty.
  - intros a candidate rest S K. rewrite urlSceneLoading_run, S.
    apply includes_In in K. rewrite K. reflexivity.
  - intros a H. rewrite urlSceneLoading_run.
    destruct (segments (Router.pathname a)) as [| marker [| candidate rest]] eqn:S;
      try reflexivity.
    destruct (String.eqb_spec marker "viewer") as [-> | N]; [| reflexivity].
    destruct (SceneCatalog.includes SceneCatalog.SCENES candidate) eqn:K;
      [| reflexivity].
    apply includes_In in K. exfalso. exact (H candidate rest eq_refl K).
  - reflexivity.
  - reflexivity.
  - intros a P. rewrite urlSceneLoading_run, P. reflexivity.
  - reflexivity.
Qed.

Lemma url_scene_loading_witness :
  let a := Router.mkApp None "/viewer/mountains/extra" [] in
  let b := Router.mkApp (Some (SceneCatalog.makeScene "aurora")) "/gallery/aurora" [] in
  segments (Router.pathname a) = ["viewer"; "mountains"; "extra"]%string
  /\ In "mountains"%string SceneCatalog.SCENES
  /\ Router.selectedId (Router.urlSceneLoading a) = Some "mountains"%string
  /\ Router.urlSceneLoading b = b.
Proof.
  intros a b.
  destruct url_scene_loading as (_ & Hsel & Hkeep & _).
  assert (In "mountains"%string SceneCatalog.SCENES) as K
    by (simpl; right; left; reflexivity).
  split; [reflexivity |]. split; [exact K |].
  split.
  - rewrite (Hsel a "mountains"%string ["extra"%string] eq_refl K). reflexivity.
  - apply Hkeep. intros candidate rest S. discriminate S.
Defined.

(** ** Display names *)

Example name_tropical_sea :
  SceneCatalog.name (SceneCatalog.makeScene "tropical_sea") = "Tropical Sea"%string.
Proof. reflexivity. Qed.

Example name_aurora :
  SceneCatalog.name (SceneCatalog.makeScene "aurora") = "Aurora"%string.
Proof. reflexivity. Qed.

(** ** Navigation *)

Lemma selectItem_pathname (item : SceneCatalog.Scene) (a : Router.App) :
  Router.pathname (Router.selectItem item a)
  = ("/viewer/" ++ SceneCatalog.id item)%string
  /\ Router.selected (Router.selectItem item a) = Some item.
Proof. split; reflexivity. Qed.

Lemma goHome_clears (a : Router.App) :
  Router.pathname (Router.goHome a) = "/"%string
  /\ Router.selected (Router.goHome a) = None.
Proof. split; reflexivity. Qed.

(** ** The single-default variant *)

Lemma single_findItemById_known (id : string) :
  In id SingleFov.SCENES ->
  exists d, SingleFov.findItemById id = Some (Some d)
            /\ SceneCatalog.id d = id
            /\ SceneCatalog.imagePaths d = map (scenePath id) SceneCatalog.samplerOutputs.
Proof.
  intros H. simpl in H.
  destruct H as [<- | [<- | []]]; eexists; (split; [reflexivity |]); split; reflexivity.
Qed.

Lemma single_findItemById_unknown (id : string) :
  ~ In id SingleFov.SCENES -> SingleFov.findItemById id = Some None.
Proof.
  intros H. unfold SingleFov.findItemById.
  destruct (SceneCatalog.includes SingleFov.SCENES id) eqn:E; [| reflexivity].
  apply includes_In in E. contradiction.
Qed.

Lemma single_handleWheel_run (deltaY : R) (w : World) :
  SingleFov.handleWheel deltaY w = Some (tt, zoomed (deltaY * 0.05) w).
Proof. reflexivity. Qed.

Lemma single_handleWheel_fovInRange (deltaY : R) (w : World) :
  exists w', SingleFov.handleWheel deltaY w = Some (tt, w') /\ fovInRange w'.
Proof.
  rewrite single_handleWheel_run. eexists; split; [reflexivity |].
  apply zoomed_fovInRange.
Qed.

Lemma single_revertView_idempotent (w : World) :
  exists w1 w2,
    SingleFov.revertView w = Some (tt, w1)
    /\ SingleFov.revertView w1 = Some (tt, w2)
    /\ viewState w2 = viewState w1
    /\ (forall c, controlsRef w = Some c ->
                  viewState w1 = (60, THREE.vec3 0 0 0.1, Some (THREE.vec3 0 0 0))).
Proof.
  unfold SingleFov.revertView, bind, read.
  destruct (controlsRef w) as [c |] eqn:E.
  - unfold write_position, write_target, write_fov, updateProjectionMatrix,
      controls_update, call, bind, read; simpl. rewrite E; simpl.
    eexists; eexists. split; [reflexivity |]. simpl.
    split; [reflexivity |]. split; reflexivity.
  - exists w, w. rewrite E. split; [reflexivity |]. split; [reflexivity |].
    split; [reflexivity |]. intros c Hc; discriminate.
Qed.

(** * Further properties of the code *)

(** ** Zooming *)

Lemma clampFov_monotone (a b : R) : a <= b -> clampFov a <= clampFov b.
Proof.
  intros H. unfold clampFov, Math_min, Math_max, Rmin, Rmax.
  repeat destruct Rle_dec; lra.
Qed.




(** X2.  The zoom buttons undo each other only away from the bounds: from a
    field of view in [30,100], zoom-in then zoom-out ends at the larger of
    the old value and 35, so it restores the old value exactly when that was
    at least 35; zoom-out then zoom-in ends at the smaller of the old value
    and 95. *)
Theorem zoom_buttons_round_trip (w : World) (c : OrbitControls) :
  controlsRef w = Some c ->
  fovInRange w ->
  exists w1 w2,
    perform_all [OnEvent (Click ZoomIn); OnEvent (Click ZoomOut)] w = Some (tt, w1)
    /\ perform_all [OnEvent (Click ZoomOut); OnEvent (Click ZoomIn)] w = Some (tt, w2)
    /\ fov (camera w1) = Rmax (fov (camera w)) 35
    /\ fov (camera w2) = Rmin (fov (camera w)) 95
    /\ (fov (camera w1) = fov (camera w) <-> 35 <= fov (camera w))
    /\ (fov (camera w2) = fov (camera w) <-> fov (camera w) <= 95).
Proof.
  intros A H. unfold fovInRange in H.
  exists (zoomed 5 (zoomed (-5) w)), (zoomed (-5) (zoomed 5 w)).
  assert (fov (camera (zoomed 5 (zoomed (-5) w))) = Rmax (fov (camera w)) 35) as E1.
  { unfold zoomed; simpl. unfold clampFov, Math_min, Math_max, Rmin, Rmax.
    repeat destruct Rle_dec; lra. }
  assert (fov (camera (zoomed (-5) (zoomed 5 w))) = Rmin (fov (camera w)) 95) as E2.
  { unfold zoomed; simpl. unfold clampFov, Math_min, Math_max, Rmin, Rmax.
    repeat destruct Rle_dec; lra. }
  split.
  { simpl. unfold bind. rewrite zoom_run, A. rewrite zoom_run. simpl. rewrite A. reflexivity. }
  split.
  { simpl. unfold bind. rewrite zoom_run, A. rewrite zoom_run. simpl. rewrite A. reflexivity. }
  split; [exact E1 |]. split; [exact E2 |].
  rewrite E1, E2. unfold Rmax, Rmin.
  split; split; intros Q; repeat destruct Rle_dec; lra.
Qed.

Lemma zoom_buttons_round_trip_witness :
  controlsRef (mounted 1024) = Some (mkControls (THREE.vec3 0 0 0))
  /\ fovInRange (mounted 1024)
  /\ exists w1,
       perform_all [OnEvent (Click ZoomIn); OnEvent (Click ZoomOut)] (mounted 1024)
       = Some (tt, w1)
       /\ fov (camera w1) = fov (camera (mounted 1024)).
Proof.
  assert (fovInRange (mounted 1024)) as M.
  { unfold fovInRange. rewrite mounted_desktop_fov. lra. }
  split; [reflexivity |]. split; [exact M |].
  destruct (zoom_buttons_round_trip (mounted 1024) _ eq_refl M)
    as (w1 & w2 & H1 & _ & _ & _ & I & _).
  exists w1. split; [exact H1 |]. apply I. rewrite mounted_desktop_fov. lra.
Defined.

(** ** Pinching *)

(** X3.  Pinch moves accumulate: while a distance is recorded, two
    successive two-point moves leave the same field of view and the same
    record as the second move alone, provided the first did not hit a bound
    of [30,100]. *)
Theorem pinch_moves_accumulate (w : World) (d0 : R) (a0 a1 b0 b1 : Touch) :
  initialTouchDistance w = Some d0 ->
  30 <= fov (camera w) + (d0 - distance a0 a1) * ZOOM_SENSITIVITY <= 100 ->
  exists w2 w2',
    (handleTouchMove [a0; a1] ;; handleTouchMove [b0; b1]) w = Some (tt, w2)
    /\ handleTouchMove [b0; b1] w = Some (tt, w2')
    /\ fov (camera w2) = fov (camera w2')
    /\ fov (camera w2)
       = clampFov (fov (camera w) + (d0 - distance b0 b1) * ZOOM_SENSITIVITY)
    /\ initialTouchDistance w2 = Some (distance b0 b1)
    /\ initialTouchDistance w2' = Some (distance b0 b1).
Proof.
  intros I H.
  set (w1 := pinched d0 (distance a0 a1) w).
  exists (pinched (distance a0 a1) (distance b0 b1) w1), (pinched d0 (distance b0 b1) w).
  assert (fov (camera w1) = fov (camera w) + (d0 - distance a0 a1) * ZOOM_SENSITIVITY) as F1.
  { unfold w1, pinched, recording, zoomed; simpl. apply clampFov_inside, H. }
  assert (fov (camera (pinched (distance a0 a1) (distance b0 b1) w1))
          = clampFov (fov (camera w) + (d0 - distance b0 b1) * ZOOM_SENSITIVITY)) as F2.
  { change (clampFov (fov (camera w1)
                      + (distance a0 a1 - distance b0 b1) * ZOOM_SENSITIVITY)
            = clampFov (fov (camera w) + (d0 - distance b0 b1) * ZOOM_SENSITIVITY)).
    rewrite F1. f_equal. ring. }
  split.
  { unfold bind. rewrite (handleTouchMove_tracking a0 a1 d0 w I).
    apply (handleTouchMove_tracking b0 b1 (distance a0 a1) w1). reflexivity. }
  split; [apply handleTouchMove_tracking, I |].
  split; [rewrite F2; reflexivity |].
  split; [exact F2 |]. split; reflexivity.
Qed.

Lemma pinch_moves_accumulate_witness :
  initialTouchDistance (recording (Some 100) (mounted 1024)) = Some 100
  /\ exists w2,
       (handleTouchMove [mkTouch 0 0; mkTouch 90 0] ;;
        handleTouchMove [mkTouch 0 0; mkTouch 80 0])
         (recording (Some 100) (mounted 1024)) = Some (tt, w2)
       /\ fov (camera w2) = 73.
Proof.
  split; [reflexivity |].
  assert (distance (mkTouch 0 0) (mkTouch 90 0) = 90) as D90
    by (apply distance_horizontal; lra).
  assert (distance (mkTouch 0 0) (mkTouch 80 0) = 80) as D80
    by (apply distance_horizontal; lra).
  assert (30 <= fov (camera (recording (Some 100) (mounted 1024)))
                + (100 - distance (mkTouch 0 0) (mkTouch 90 0)) * ZOOM_SENSITIVITY
          <= 100) as H.
  { rewrite D90. change (fov (camera (recording (Some 100) (mounted 1024))))
      with (fov (camera (mounted 1024))).
    rewrite mounted_desktop_fov. unfold ZOOM_SENSITIVITY. lra. }
  destruct (pinch_moves_accumulate (recording (Some 100) (mounted 1024)) 100
              (mkTouch 0 0) (mkTouch 90 0) (mkTouch 0 0) (mkTouch 80 0) eq_refl H)
    as (w2 & w2' & H2 & _ & _ & F & _).
  exists w2. split; [exact H2 |].
  rewrite F, D80.
  change (fov (camera (recording (Some 100) (mounted 1024))))
    with (fov (camera (mounted 1024))).
  rewrite mounted_desktop_fov. unfold ZOOM_SENSITIVITY.
  rewrite clampFov_inside; lra.
Defined.

(** X4.  A touchmove whose point count is not two is ignored but does not
    clear the record: the next two-point move zooms by the whole change of
    distance since the record was taken.  A touchstart with such a count
    does clear it, and the next two-point move is then ignored. *)
Theorem pinch_record_outlives_other_moves
    (w : World) (d0 : R) (other : list Touch) (b0 b1 : Touch) :
  initialTouchDistance w = Some d0 ->
  List.length other <> 2%nat ->
  (handleTouchMove other ;; handleTouchMove [b0; b1]) w
  = Some (tt, pinched d0 (distance b0 b1) w)
  /\ (handleTouchStart other ;; handleTouchMove [b0; b1]) w
     = Some (tt, recording None w).
Proof.
  intros I L. split.
  - unfold bind. rewrite (handleTouchMove_other other w L).
    apply handleTouchMove_tracking, I.
  - unfold bind. rewrite (handleTouchStart_other other w L).
    apply handleTouchMove_idle. reflexivity.
Qed.

Lemma pinch_record_outlives_other_moves_witness :
  let w := recording (Some 100) (mounted 1024) in
  let three := [mkTouch 0 0; mkTouch 50 0; mkTouch 0 50] in
  initialTouchDistance w = Some 100
  /\ List.length three <> 2%nat
  /\ (handleTouchMove three ;; handleTouchMove [mkTouch 0 0; mkTouch 80 0]) w
     = Some (tt, pinched 100 (distance (mkTouch 0 0) (mkTouch 80 0)) w).
Proof.
  intros w three.
  assert (List.length three <> 2%nat) as L by (simpl; discriminate).
  split; [reflexivity |]. split; [exact L |].
  apply (pinch_record_outlives_other_moves w 100 three _ _ eq_refl L).
Defined.

(** X5.  With no distance recorded (before any two-point touchstart, after
    a touchend), every run of touchmove events, whatever their points,
    leaves the whole store as it is. *)
Theorem idle_touchmoves_change_nothing (w : World) (moves : list (list Touch)) :
  initialTouchDistance w = None ->
  perform_all (touchMoves moves) w = Some (tt, w).
Proof.
  intros I. induction moves as [| touches rest IH]; [reflexivity |].
  simpl. unfold bind. rewrite (handleTouchMove_idle touches w I). exact IH.
Qed.

Lemma idle_touchmoves_change_nothing_witness :
  initialTouchDistance (mounted 1024) = None
  /\ perform_all (touchMoves [[mkTouch 0 0; mkTouch 3 4]; [mkTouch 1 1]; []])
                 (mounted 1024) = Some (tt, mounted 1024).
Proof.
  split; [reflexivity |].
  apply idle_touchmoves_change_nothing. reflexivity.
Defined.

(** X6.  [getDistance] throws exactly when there are fewer than two touch
    points; on two or more it returns, without touching the store, the
    distance of the first two, which is not negative, the same in either
    order of the two points, and zero only for coincident points. *)
Theorem getDistance_behaviour (touches : list Touch) (w : World) :
  (getDistance touches w = None <-> (List.length touches < 2)%nat)
  /\ (forall (t0 t1 : Touch) (rest : list Touch),
         touches = t0 :: t1 :: rest ->
         getDistance touches w = Some (distance t0 t1, w)
         /\ getDistance (t1 :: t0 :: rest) w = getDistance touches w
         /\ 0 <= distance t0 t1
         /\ (distance t0 t1 = 0 -> clientX t0 = clientX t1 /\ clientY t0 = clientY t1)).
Proof.
  split.
  - destruct touches as [| t0 [| t1 rest]]; unfold getDistance, throw, ret; simpl.
    + split; [intros _; lia | reflexivity].
    + split; [intros _; lia | reflexivity].
    + split; [discriminate | intros H; lia].
  - intros t0 t1 rest ->.
    split; [reflexivity |].
    split.
    { unfold getDistance, ret; simpl. do 2 f_equal. f_equal. ring. }
    split; [apply sqrt_pos |].
    unfold distance, Math_sqrt. intros Z.
    pose proof (Rle_0_sqr (clientX t0 - clientX t1)) as Px.
    pose proof (Rle_0_sqr (clientY t0 - clientY t1)) as Py.
    unfold Rsqr in Px, Py.
    apply sqrt_eq_0 in Z; [| lra].
    assert ((clientX t0 - clientX t1) * (clientX t0 - clientX t1) = 0) as Zx by lra.
    assert ((clientY t0 - clientY t1) * (clientY t0 - clientY t1) = 0) as Zy by lra.
    apply Rsqr_0_uniq in Zx. apply Rsqr_0_uniq in Zy. split; lra.
Qed.

Lemma getDistance_behaviour_witness :
  [mkTouch 0 0; mkTouch 3 4; mkTouch 9 9] = mkTouch 0 0 :: mkTouch 3 4 :: [mkTouch 9 9]
  /\ getDistance [mkTouch 0 0; mkTouch 3 4; mkTouch 9 9] (mounted 1024)
     = Some (distance (mkTouch 0 0) (mkTouch 3 4), mounted 1024)
  /\ (List.length [mkTouch 0 0] < 2)%nat
  /\ getDistance [mkTouch 0 0] (mounted 1024) = None.
Proof.
  split; [reflexivity |].
  split.
  - apply (proj2 (getDistance_behaviour _ (mounted 1024)) _ _ _ eq_refl).
  - split; [repeat constructor |].
    apply (proj1 (getDistance_behaviour [mkTouch 0 0] (mounted 1024))).
    repeat constructor.
Defined.

(** ** What every mutation keeps *)

Lemma rotate_step (angleX angleY : R) (w : World) :
  exists w', rotate angleX angleY w = Some (tt, w') /\ Step w w'.
Proof.
  rewrite rotate_run. eexists; split; [reflexivity |].
  destruct (controlsRef w) as [c |] eqn:E; [apply step_rotate, E | apply step_none].
Qed.

Lemma zoom_step (factor : R) (w : World) :
  exists w', zoom factor w = Some (tt, w') /\ Step w w'.
Proof.
  rewrite zoom_run. eexists; split; [reflexivity |].
  destruct (controlsRef w); [apply step_zoom | apply step_none].
Qed.

Lemma revertView_step (w : World) :
  exists w', revertView w = Some (tt, w') /\ Step w w'.
Proof.
  rewrite revertView_run. eexists; split; [reflexivity |].
  destruct (controlsRef w) as [c |] eqn:E; [apply (step_revert w c E) | apply step_none].
Qed.

Lemma perform_step (m : Mutation) (w : World) :
  exists w', perform m w = Some (tt, w') /\ Step w w'.
Proof.
  destruct m as [[deltaY | touches | touches | | b] | factor | angleX angleY |]; simpl.
  - rewrite handleWheel_run. eexists; split; [reflexivity | apply step_zoom].
  - destruct (Nat.eq_dec (List.length touches) 2) as [E | E].
    + destruct (two_touches _ E) as (t0 & t1 & ->).
      rewrite handleTouchStart_two. eexists; split; [reflexivity | apply step_record].
    + rewrite handleTouchStart_other by exact E.
      eexists; split; [reflexivity | apply step_record].
  - destruct (Nat.eq_dec (List.length touches) 2) as [E | E].
    + destruct (two_touches _ E) as (t0 & t1 & ->).
      destruct (initialTouchDistance w) as [initial |] eqn:I.
      * rewrite (handleTouchMove_tracking _ _ _ _ I).
        eexists; split; [reflexivity | apply step_pinch].
      * rewrite handleTouchMove_idle by exact I.
        eexists; split; [reflexivity | apply step_none].
    + rewrite handleTouchMove_other by exact E.
      eexists; split; [reflexivity | apply step_none].
  - rewrite handleTouchEnd_run. eexists; split; [reflexivity | apply step_record].
  - destruct b; simpl;
      first [apply rotate_step | apply zoom_step | apply revertView_step].
  - apply zoom_step.
  - apply rotate_step.
  - apply revertView_step.
Qed.

Lemma Step_innerWidth (w w' : World) : Step w w' -> innerWidth w' = innerWidth w.
Proof. intros S. destruct S; reflexivity. Qed.






Lemma orbit_origin (q : THREE.Quaternion) (p : THREE.Vector3) :
  orbit q p (THREE.vec3 0 0 0) = THREE.applyQuaternion p q.
Proof.
  destruct p as [px py pz], q as [qx qy qz qw].
  unfold orbit, THREE.add, THREE.sub, THREE.applyQuaternion; simpl.
  f_equal; ring.
Qed.

Lemma sub_origin (p : THREE.Vector3) : THREE.sub p (THREE.vec3 0 0 0) = p.
Proof. destruct p as [px py pz]. unfold THREE.sub; simpl. f_equal; ring. Qed.

(** The camera is at distance 0.1 from an orbit target at the origin. *)
Lemma Step_on_sphere (w w' : World) :
  Step w w' ->
  controlsRef w = Some (mkControls (THREE.vec3 0 0 0))
  /\ THREE.lengthSq (position (camera w)) = 0.1 * 0.1 ->
  controlsRef w' = Some (mkControls (THREE.vec3 0 0 0))
  /\ THREE.lengthSq (position (camera w')) = 0.1 * 0.1.
Proof.
  intros S [A L]. destruct S as [| d | delta | initial current | angleX angleY c E | c E];
    simpl; try (split; assumption).
  - rewrite A in E. injection E as <-. split; [exact A |].
    simpl. rewrite orbit_origin, lengthSq_applyQuaternion, normSq_combined, L. ring.
  - split; [reflexivity |]. unfold THREE.lengthSq; simpl. lra.
Qed.

(** X8.  Whatever the user does after the canvas is mounted, the orbit
    target stays at the origin and the camera stays at distance 0.1 from
    it: every sequence of mutations returns, and leaves the handle attached
    with its target at (0,0,0) and the camera on the sphere of radius 0.1. *)
Theorem camera_stays_on_sphere (width : R) (ms : list Mutation) :
  exists w',
    perform_all ms (mounted width) = Some (tt, w')
    /\ controlsRef w' = Some (mkControls (THREE.vec3 0 0 0))
    /\ THREE.length (offset (THREE.vec3 0 0 0) w') = 0.1
    /\ innerWidth w' = width.
Proof.
  assert (forall ms w,
             controlsRef w = Some (mkControls (THREE.vec3 0 0 0))
             /\ THREE.lengthSq (position (camera w)) = 0.1 * 0.1 ->
             exists w', perform_all ms w = Some (tt, w')
                        /\ (controlsRef w' = Some (mkControls (THREE.vec3 0 0 0))
                            /\ THREE.lengthSq (position (camera w')) = 0.1 * 0.1)
                        /\ innerWidth w' = innerWidth w) as G.
  { clear ms. induction ms as [| m rest IH]; intros w I.
    - exists w. split; [reflexivity |]. split; [exact I | reflexivity].
    - destruct (perform_step m w) as (w1 & E1 & S1).
      destruct (IH w1 (Step_on_sphere _ _ S1 I)) as (w2 & E2 & I2 & W2).
      exists w2. split; [simpl; unfold bind; rewrite E1; exact E2 |].
      split; [exact I2 |]. rewrite W2. apply Step_innerWidth, S1. }
  destruct (G ms (mounted width)) as (w' & E & [A L] & W).
  { split; [reflexivity |]. unfold THREE.lengthSq, mounted; simpl. lra. }
  exists w'. split; [exact E |]. split; [exact A |].
  split; [| exact W].
  unfold offset, THREE.length, Math_sqrt. rewrite sub_origin, L.
  apply sqrt_square. lra.
Qed.

(** ** Rotation in coordinates *)




























(** ** Paths and their segments *)

Lemma split_nonempty (sep : ascii) (s : string) : JsString.split sep s <> [].
Proof.
  destruct s as [| c rest]; simpl; [discriminate |].
  destruct (Ascii.eqb c sep); [discriminate |].
  destruct (JsString.split sep rest); discriminate.
Qed.

Lemma split_app (sep : ascii) (a b : string) :
  JsString.split sep (a ++ String sep b)
  = JsString.split sep a ++ JsString.split sep b.
Proof.
  induction a as [| c a IH]; simpl.
  - rewrite Ascii.eqb_refl. reflexivity.
  - destruct (Ascii.eqb c sep); [rewrite IH; reflexivity |].
    rewrite IH. pose proof (split_nonempty sep a) as N.
    destruct (JsString.split sep a) as [| seg segs]; [contradiction | reflexivity].
Qed.

Lemma split_without_sep (sep : ascii) (s : string) :
  occurs sep s = false -> JsString.split sep s = [s].
Proof.
  induction s as [| c s IH]; simpl; [reflexivity |].
  intros H. apply orb_false_iff in H as [H1 H2].
  rewrite H1, (IH H2). reflexivity.
Qed.

Lemma split_segments_without_sep (sep : ascii) (s : string) :
  Forall (fun seg => occurs sep seg = false) (JsString.split sep s).
Proof.
  induction s as [| c s IH]; simpl.
  - constructor; [reflexivity | constructor].
  - destruct (Ascii.eqb c sep) eqn:E.
    + constructor; [reflexivity | exact IH].
    + pose proof (split_nonempty sep s) as N.
      destruct (JsString.split sep s) as [| seg segs]; [contradiction |].
      inversion IH as [| ? ? Hseg Hsegs]; subst.
      constructor; [simpl; rewrite E, Hseg; reflexivity | exact Hsegs].
Qed.

Lemma segments_app (a b : string) :
  segments (a ++ String "/" b) = segments a ++ segments b.
Proof. unfold segments. rewrite split_app, filter_app. reflexivity. Qed.

Lemma load_selected (path : string) :
  Router.selected (Router.load path)
  = match segments path with
    | marker :: candidate :: _ =>
        if String.eqb marker "viewer"
           && SceneCatalog.includes SceneCatalog.SCENES candidate
        then Some (SceneCatalog.makeScene candidate)
        else None
    | _ => None
    end.
Proof.
  unfold Router.load. rewrite urlSceneLoading_run. simpl Router.pathname.
  destruct (segments path) as [| marker [| candidate rest]]; try reflexivity.
  destruct (String.eqb marker "viewer" && _); reflexivity.
Qed.

(** X14.  The router sees a path only through its non-empty segments, and
    those of a path cut at a slash are those of the two parts, one after the
    other.  So a leading, trailing or repeated slash changes nothing: the
    path with a slash added in front, at the end, or doubled anywhere loads
    the same selection. *)
Theorem router_ignores_extra_slashes (a b : string) :
  segments (a ++ "/" ++ b) = segments a ++ segments b
  /\ segments ("/" ++ b) = segments b
  /\ segments (a ++ "/") = segments a
  /\ Router.selected (Router.load ("/" ++ b)) = Router.selected (Router.load b)
  /\ Router.selected (Router.load (a ++ "/")) = Router.selected (Router.load a)
  /\ Router.selected (Router.load (a ++ "/" ++ "/" ++ b))
     = Router.selected (Router.load (a ++ "/" ++ b)).
Proof.
  assert (segments ("/" ++ b) = segments b) as L
    by (apply (segments_app "" b)).
  assert (segments (a ++ "/") = segments a) as T.
  { change (a ++ "/")%string with (a ++ String "/" "")%string.
    rewrite segments_app. apply app_nil_r. }
  split; [apply segments_app |]. split; [exact L |]. split; [exact T |].
  rewrite !load_selected, L, T.
  split; [reflexivity |]. split; [reflexivity |].
  change (a ++ "/" ++ "/" ++ b)%string with (a ++ String "/" ("/" ++ b))%string.
  change (a ++ "/" ++ b)%string with (a ++ String "/" b)%string.
  rewrite !segments_app, L. reflexivity.
Qed.

(** X15.  No segment the router works with is empty or contains a slash,
    and a non-empty string without a slash is the single segment of
    itself. *)
Theorem segments_are_clean (path : string) :
  Forall (fun seg => seg <> EmptyString /\ occurs "/" seg = false) (segments path)
  /\ (path <> EmptyString -> occurs "/" path = false -> segments path = [path]).
Proof.
  split.
  - unfold segments. apply Forall_forall. intros seg H.
    apply filter_In in H as [H T]. split; [apply truthy_nonempty, T |].
    pose proof (split_segments_without_sep "/" path) as F.
    rewrite Forall_forall in F. apply F, H.
  - intros N O. unfold segments. rewrite (split_without_sep _ _ O). simpl.
    destruct path; [contradiction N; reflexivity | reflexivity].
Qed.

Lemma segments_are_clean_witness :
  "aurora"%string <> EmptyString
  /\ occurs "/" "aurora" = false
  /\ segments "aurora" = ["aurora"%string].
Proof.
  assert ("aurora"%string <> EmptyString) as N by discriminate.
  split; [exact N |]. split; [reflexivity |].
  apply (proj2 (segments_are_clean "aurora") N). reflexivity.
Defined.

Lemma segments_viewer (id : string) :
  id <> EmptyString -> occurs "/" id = false ->
  segments ("/viewer/" ++ id) = ["viewer"%string; id].
Proof.
  intros N O.
  change ("/viewer/" ++ id)%string
    with ("" ++ String "/" ("viewer" ++ String "/" id))%string.
  rewrite !segments_app.
  rewrite (proj2 (segments_are_clean id) N O). reflexivity.
Qed.

(** X16.  Navigation and reload agree.  Clicking a card of the gallery
    selects its scene and pushes /viewer/<id>; loading the application at
    the pushed path selects the same scene again.  Going home pushes / and
    clears the selection, and loading at / selects nothing.  The same holds
    for any scene built from a catalog id. *)
Theorem navigate_then_reload (item : SceneCatalog.Scene) (a : Router.App) :
  In item gallery ->
  Router.selected (Router.selectItem item a) = Some item
  /\ Router.pathname (Router.selectItem item a)
     = ("/viewer/" ++ SceneCatalog.id item)%string
  /\ Router.selected (Router.load (Router.pathname (Router.selectItem item a)))
     = Some item
  /\ Router.selected (Router.goHome (Router.selectItem item a)) = None
  /\ Router.selected
       (Router.load (Router.pathname (Router.goHome (Router.selectItem item a))))
     = None.
Proof.
  intros G. unfold gallery in G. apply in_map_iff in G as (id & <- & K).
  split; [reflexivity |]. split; [reflexivity |].
  split; [| split; reflexivity].
  change (Router.pathname (Router.selectItem (SceneCatalog.makeScene id) a))
    with ("/viewer/" ++ id)%string.
  assert (id <> EmptyString /\ occurs "/" id = false) as [N O].
  { simpl in K. destruct K as [<- | [<- | [<- | [<- | []]]]];
      (split; [discriminate | reflexivity]). }
  rewrite load_selected, (segments_viewer id N O).
  apply includes_In in K. rewrite K. reflexivity.
Qed.

Lemma navigate_then_reload_witness :
  In (SceneCatalog.makeScene "mountains") gallery
  /\ Router.selectedId
       (Router.load (Router.pathname
          (Router.selectItem (SceneCatalog.makeScene "mountains")
             (Router.load "/"))))
     = Some "mountains"%string.
Proof.
  assert (In (SceneCatalog.makeScene "mountains") gallery) as G
    by (simpl; right; left; reflexivity).
  split; [exact G |].
  destruct (navigate_then_reload _ (Router.load "/") G) as (_ & _ & R & _).
  unfold Router.selectedId. rewrite R. reflexivity.
Defined.

(** ** Display names and image files *)










Lemma split_scenePath (id file : string) :
  occurs "/" id = false -> occurs "/" file = false ->
  JsString.split "/" (scenePath id file) = [""; "scenes"; id; file]%string.
Proof.
  intros Hi Hf.
  change (scenePath id file)
    with ("" ++ String "/" ("scenes" ++ String "/" (id ++ String "/" file)))%string.
  rewrite !split_app, (split_without_sep _ _ Hi), (split_without_sep _ _ Hf).
  reflexivity.
Qed.

Lemma samplerOutputs_without_slash (file : string) :
  In file SceneCatalog.samplerOutputs -> occurs "/" file = false.
Proof.
  simpl. intros H.
  repeat (destruct H as [<- | H]; [reflexivity |]). contradiction.
Qed.

Lemma samplerOutputs_NoDup : NoDup SceneCatalog.samplerOutputs.
Proof.
  unfold SceneCatalog.samplerOutputs.
  repeat (constructor; [simpl; intuition discriminate |]). constructor.
Qed.

Lemma scenePath_file_injective (id f f' : string) :
  scenePath id f = scenePath id f' -> f = f'.
Proof.
  unfold scenePath. simpl. intros H.
  repeat match type of H with String _ _ = String _ _ => injection H as H end.
  induction id as [| c id IH]; simpl in H; injection H as H; [exact H | apply IH, H].
Qed.

Lemma NoDup_map_injective {A B : Type} (f : A -> B) (l : list A) :
  (forall a a', f a = f a' -> a = a') -> NoDup l -> NoDup (map f l).
Proof.
  intros I N. induction N as [| a l Ha N IH]; simpl; constructor; [| exact IH].
  intros H. apply in_map_iff in H as (a' & E & Ha'). apply I in E. subst a'.
  contradiction.
Qed.

(** X18.  The seven image paths of a descriptor are pairwise distinct, and
    two descriptors whose ids differ (ids without a slash, as all of the
    catalog are) have no image path in common. *)
Theorem scene_files_are_distinct (id id' : string) :
  NoDup (SceneCatalog.imagePaths (SceneCatalog.makeScene id))
  /\ (occurs "/" id = false -> occurs "/" id' = false ->
      forall path : string,
        In path (SceneCatalog.imagePaths (SceneCatalog.makeScene id)) ->
        In path (SceneCatalog.imagePaths (SceneCatalog.makeScene id')) ->
        id = id').
Proof.
  rewrite !makeScene_imagePaths. split.
  - apply NoDup_map_injective; [| apply samplerOutputs_NoDup].
    intros f f'. apply scenePath_file_injective.
  - intros Hi Hi' path H H'.
    apply in_map_iff in H as (f & <- & Hf).
    apply in_map_iff in H' as (f' & E & Hf').
    apply (f_equal (JsString.split "/")) in E.
    rewrite !split_scenePath in E
      by (assumption || apply samplerOutputs_without_slash; assumption).
    injection E as E _. symmetry. exact E.
Qed.

Lemma scene_files_are_distinct_witness :
  occurs "/" "aurora" = false
  /\ occurs "/" "mountains" = false
  /\ NoDup (SceneCatalog.imagePaths (SceneCatalog.makeScene "aurora"))
  /\ ~ In "/scenes/aurora/top.png"%string
          (SceneCatalog.imagePaths (SceneCatalog.makeScene "mountains")).
Proof.
  split; [reflexivity |]. split; [reflexivity |].
  destruct (scene_files_are_distinct "aurora" "mountains") as [N D].
  split; [exact N |].
  intros H. specialize (D eq_refl eq_refl "/scenes/aurora/top.png"%string).
  assert ("aurora"%string = "mountains"%string) as E.
  { apply D; [| exact H]. simpl. right. right. left. reflexivity. }
  discriminate E.
Defined.

(** ** The single-default variant, further *)

(** X19.  In the single-default variant [makeScene] throws exactly on the
    empty id, and the lookup never throws: it returns null for every id
    outside the list, the empty one included, and for an id of the list a
    descriptor with that id and the same image paths as the responsive
    variant builds.  For an id without underscore the two variants derive
    the same display name. *)
Theorem single_catalog_lookup (id : string) :
  (SingleFov.makeScene id = None <-> id = EmptyString)
  /\ (exists r, SingleFov.findItemById id = Some r)
  /\ (~ In id SingleFov.SCENES -> SingleFov.findItemById id = Some None)
  /\ (In id SingleFov.SCENES ->
      exists d, SingleFov.findItemById id = Some (Some d)
                /\ SceneCatalog.id d = id
                /\ SceneCatalog.imagePaths d
                   = SceneCatalog.imagePaths (SceneCatalog.makeScene id))
  /\ (forall d, SingleFov.makeScene id = Some d ->
                occurs "_" id = false ->
                SceneCatalog.name d = SceneCatalog.name (SceneCatalog.makeScene id)).
Proof.
  split; [| split; [| split; [| split]]].
  - destruct id; simpl; split; intros H; try reflexivity; discriminate.
  - unfold SingleFov.findItemById.
    destruct (SceneCatalog.includes SingleFov.SCENES id) eqn:E;
      [| eexists; reflexivity].
    apply includes_In in E. simpl in E.
    destruct E as [<- | [<- | []]]; eexists; reflexivity.
  - apply single_findItemById_unknown.
  - intros K. simpl in K.
    destruct K as [<- | [<- | []]]; eexists; (split; [reflexivity |]);
      split; reflexivity.
  - intros d M O. destruct id as [| c rest]; [discriminate M |].
    simpl in M. injection M as <-.
    unfold SceneCatalog.makeScene; cbn [SceneCatalog.name].
    rewrite (split_without_sep _ _ O). reflexivity.
Qed.

Lemma single_catalog_lookup_witness :
  In "canyon"%string SingleFov.SCENES
  /\ ~ In EmptyString SingleFov.SCENES
  /\ SingleFov.findItemById "" = Some None
  /\ exists d, SingleFov.findItemById "canyon" = Some (Some d)
               /\ SceneCatalog.name d = "Canyon"%string.
Proof.
  assert (In "canyon"%string SingleFov.SCENES) as K
    by (simpl; right; left; reflexivity).
  assert (~ In EmptyString SingleFov.SCENES) as U.
  { simpl. intros [H | [H | []]]; discriminate. }
  split; [exact K |]. split; [exact U |].
  split; [apply (single_catalog_lookup ""), U |].
  destruct (single_catalog_lookup "canyon") as (_ & _ & _ & H & N).
  destruct (H K) as (d & E & _ & _).
  exists d. split; [exact E |].
  unfold SingleFov.findItemById in E. simpl in E. injection E as <-.
  reflexivity.
Defined.



